(** * Jordan splitting of quadratic forms: [siegel_series.py]

    A shallow embedding of the Jordan-block normalisation of
    [siegel_series.py] and the proofs of its stated properties.

    Sage integers are [Z]; [x % 8] is [Z.modulo] (non-negative for a positive
    modulus, as in Python).  Python lists are [list].  The second component
    of a block is either an integer or one of the two strings ["h"], ["y"];
    it is the tagged union [qf]. *)

From Stdlib Require Import ZArith List Bool Lia Permutation Sorted.
From Stdlib Require Import QArith Qreduction Qcanon Qpower.
Import ListNotations.

Local Open Scope Z_scope.

(* ================================================================== *)
(** ** [does_2adically_rep_zero] *)

(** The residues the three nested loops run over. *)
Definition sq_residues : list Z := [0; 1; 4].

(** The test of the innermost [if]:
    [any(w % 2 for w in [x, y, z]) and (a*x + b*y + c*z) % 8 == 0]. *)
Definition rep_zero_at (a b c x y z : Z) : bool :=
  existsb (fun w => negb (w mod 2 =? 0)) [x; y; z]
  && ((a * x + b * y + c * z) mod 8 =? 0).

(** The three loops return [True] at the first hit and [False] when all
    are exhausted. *)
Definition does_2adically_rep_zero (a b c : Z) : bool :=
  existsb (fun x =>
    existsb (fun y =>
      existsb (fun z => rep_zero_at a b c x y z) sq_residues)
    sq_residues)
  sq_residues.

(* ================================================================== *)
(** ** Entries of a block list *)

(** The value [b] of a tuple [(a, b)]: an integer, or the string ["h"]
    ([hyp2_name]) or ["y"] ([y2_name]). *)
Inductive qf : Type :=
| Res (b : Z)
| hyp2_name
| y2_name.

(** [isinstance(b, str)], which on these values is also
    [b in [hyp2_name, y2_name]]. *)
Definition is_str (b : qf) : bool :=
  match b with
  | Res _ => false
  | _ => true
  end.

(** [[a for a in l if a not in [hyp2_name, y2_name]]], as integers. *)
Fixpoint diag_part (l : list qf) : list Z :=
  match l with
  | [] => []
  | Res b :: l' => b :: diag_part l'
  | _ :: l' => diag_part l'
  end.

(** [[a for a in l if a in [hyp2_name, y2_name]]]. *)
Definition non_diag_part (l : list qf) : list qf := filter is_str l.

(* ================================================================== *)
(** ** [_trans_jordan_dec_2] *)

(** The two elements appended by [l.extend(...)] for the triple
    [(u1, u2, u3)]. *)
Definition extension (u1 u2 u3 : Z) : list qf :=
  let u := u1 * u2 * u3 in
  if does_2adically_rep_zero u1 u2 u3
  then [Res ((- u) mod 8); hyp2_name]
  else [Res ((3 * u) mod 8); y2_name].

(** Lines 50-56: what is returned once [l] has been extended.  [rec] is the
    recursive call [_trans_jordan_dec_2(l_diag)]. *)
Definition renormalise (rec : list Z -> option (list qf)) (l : list qf)
  : option (list qf) :=
  let l_diag := diag_part l in
  if (length l_diag <=? 2)%nat then Some l
  else
    let l_non_diag := non_diag_part l in
    match rec l_diag with
    | Some l1 => Some (l1 ++ l_non_diag)
    | None => None
    end.

(** The recursion of [_trans_jordan_dec_2].  The second recursive call is on
    a list computed from the result of the first, so the recursion is not
    structural: [fuel] bounds the depth of the calls, and [None] means the
    bound was reached. *)
Fixpoint trans_jordan_dec_2_fuel (fuel : nat) (us : list Z)
  : option (list qf) :=
  match fuel with
  | O => None
  | S fuel' =>
    match us with
    | u1 :: u2 :: u3 :: rest =>
      match trans_jordan_dec_2_fuel fuel' rest with
      | Some l0 =>
        renormalise (trans_jordan_dec_2_fuel fuel')
                    (l0 ++ extension u1 u2 u3)
      | None => None
      end
    | _ => Some (map Res us)
    end
  end.

(** The reducer itself; [length us + 1] nested calls are always enough
    (see [trans_jordan_dec_2_total]). *)
Definition _trans_jordan_dec_2 (us : list Z) : option (list qf) :=
  trans_jordan_dec_2_fuel (S (length us)) us.

(* ================================================================== *)
(** ** Gram matrices *)

(** A Sage integer matrix, as the list of its rows (all of one length). *)
Definition matrix : Type := list (list Z).

Definition nrows (m : matrix) : nat := length m.

Definition ncols (m : matrix) : nat :=
  match m with
  | [] => O
  | r :: _ => length r
  end.

(** [m[i, j]]. *)
Definition entry (m : matrix) (i j : nat) : Z := nth j (nth i m []) 0.

(** [m.is_zero()]: every entry is zero (so also the empty matrix). *)
Definition is_zero (m : matrix) : bool := forallb (forallb (Z.eqb 0)) m.

(** [m.submatrix(row, col)]: the rows from [row] on, the columns from [col]
    on. *)
Definition submatrix (row col : nat) (m : matrix) : matrix :=
  map (skipn col) (skipn row m).

(** [m.diagonal()]. *)
Definition diagonal (m : matrix) : list Z :=
  map (fun i => entry m i i) (seq 0 (Nat.min (nrows m) (ncols m))).

(** A tuple [(a, b)] of a block list. *)
Definition blc : Type := (Z * qf)%type.

(** The result of [q.jordan_blocks_by_scale_and_unimodular(p)] with
    [Gram_matrix()] taken of every constituent: the scale classes
    [(a, m)] in the order Sage yields them.  The decomposition itself is
    Sage's; the splitters are modelled from this list on. *)
Definition scale_classes : Type := list (Z * matrix).

(* ================================================================== *)
(** ** [jordan_blocks_2] *)

(** The [while not m.is_zero()] loop of one scale class, returning the
    tuples it appends to [ls].  Every turn removes a row, so [fuel] turns
    with [fuel = nrows m] are enough (see [while_not_zero_fuel]). *)
Fixpoint while_not_zero (fuel : nat) (a : Z) (m : matrix)
  : option (list blc) :=
  if is_zero m then Some []
  else
    match fuel with
    | O => None
    | S fuel' =>
      let m00 := entry m 0 0 in
      if Z.odd m00 then
        option_map (cons (a, Res (m00 mod 8)))
                   (while_not_zero fuel' a (submatrix 1 1 m))
      else if m00 =? 0 then
        option_map (cons (a + 1, hyp2_name))
                   (while_not_zero fuel' a (submatrix 2 2 m))
      else
        option_map (cons (a + 1, y2_name))
                   (while_not_zero fuel' a (submatrix 2 2 m))
    end.

(** The tuples of one scale class [(a, q1)] with [m = q1.Gram_matrix()]. *)
Definition class_blocks (a : Z) (m : matrix) : option (list blc) :=
  while_not_zero (nrows m) a m.

(** The [for a, q1 in ...] loop: the list [ls] after all scale classes. *)
Fixpoint first_pass (jb : scale_classes) : option (list blc) :=
  match jb with
  | [] => Some []
  | (a, m) :: jb' =>
    match class_blocks a m, first_pass jb' with
    | Some l1, Some l2 => Some (l1 ++ l2)
    | _, _ => None
    end
  end.

(** [[(a, b) for a, b in ls if isinstance(b, str)]]. *)
Definition str_elts (ls : list blc) : list blc :=
  filter (fun x => is_str (snd x)) ls.

(** [[(a, b) for a, b in ls if not isinstance(b, str)]]; the [b] kept are
    integers. *)
Fixpoint diag_elts (ls : list blc) : list (Z * Z) :=
  match ls with
  | [] => []
  | (a, Res b) :: ls' => (a, b) :: diag_elts ls'
  | _ :: ls' => diag_elts ls'
  end.

Section Sorting.
Context {A : Type} (key : A -> Z).

(** The order of the keys. *)
Definition key_le (x x' : A) : Prop := key x <= key x'.

(** Insertion in front of the first element whose key is not smaller. *)
Fixpoint insert_by (x : A) (l : list A) : list A :=
  match l with
  | [] => [x]
  | x' :: l' => if key x <=? key x' then x :: l else x' :: insert_by x l'
  end.

(** Python's [sorted(l, key=key)]: ascending in the key and stable. *)
Definition sorted (l : list A) : list A := fold_right insert_by [] l.

(** [itertools.groupby]: maximal runs of consecutive equal keys. *)
Fixpoint groupby (l : list A) : list (Z * list A) :=
  match l with
  | [] => []
  | x :: l' =>
    match groupby l' with
    | (k, g) :: gs =>
      if key x =? k then (k, x :: g) :: gs
      else (key x, [x]) :: (k, g) :: gs
    | [] => [(key x, [x])]
    end
  end.
End Sorting.

(** Modelled from the spec: [list_group_by] is imported from
    [degree2.utils], which is not among the sources.  The spec has the
    splitter "group all plain Unit entries by scale"; the groups are
    modelled as the runs of equal keys of the list sorted by the key. *)
Definition list_group_by {A : Type} (ls : list A) (key_func : A -> Z)
  : list (Z * list A) :=
  groupby key_func (sorted key_func ls).

(** The body of [for b in l]: a string goes to scale [a + 1], an integer
    stays at [a]. *)
Definition retag (a : Z) (b : qf) : blc :=
  if is_str b then (a + 1, b) else (a, b).

(** The loop over the groups: what it appends to [res]. *)
Fixpoint regroup (gs : list (Z * list (Z * Z))) : option (list blc) :=
  match gs with
  | [] => Some []
  | (a, us_w_idx) :: gs' =>
    match _trans_jordan_dec_2 (map snd us_w_idx), regroup gs' with
    | Some l, Some r => Some (map (retag a) l ++ r)
    | _, _ => None
    end
  end.

Definition jordan_blocks_2 (jb : scale_classes) : option (list blc) :=
  match first_pass jb with
  | Some ls =>
    let res := str_elts ls in
    match regroup (list_group_by (diag_elts ls) fst) with
    | Some r => Some (sorted (fun x => - fst x) (res ++ r))
    | None => None
    end
  | None => None
  end.

(* ================================================================== *)
(** ** [jordan_blocks_odd] *)

Section OddPrime.
(** Sage's [legendre_symbol(t, p)] and [least_quadratic_nonresidue(p)]. *)
Variable legendre_symbol : Z -> Z -> Z.
Variable least_quadratic_nonresidue : Z -> Z.

Definition jordan_blocks_odd (jb : scale_classes) (p : Z) : list blc :=
  let u := least_quadratic_nonresidue p in
  rev (flat_map
         (fun '(a, m) =>
            map (fun t => if legendre_symbol t p =? 1
                          then (a, Res 1) else (a, Res u))
                (diagonal m))
         jb).
End OddPrime.

(** Euler's criterion, an instance of the Legendre symbol for sample runs. *)
Definition euler_legendre (t p : Z) : Z :=
  let r := (t ^ ((p - 1) / 2)) mod p in
  if r =? 0 then 0 else if r =? 1 then 1 else -1.

(** The least [r >= 2] with symbol [-1], searched below [p]. *)
Definition search_nonresidue (p : Z) : Z :=
  match find (fun r => euler_legendre r p =? -1)
             (map Z.of_nat (seq 2 (Z.to_nat p - 2))) with
  | Some r => r
  | None => 0
  end.

(* ================================================================== *)
(** ** [_blocks_to_quad_form] *)

(** The Python exceptions the lifter can end in. *)
Inductive exn : Type :=
| TypeError
| ZeroDivisionError.

Inductive result (A : Type) : Type :=
| Ok (a : A)
| Raise (e : exn).
Arguments Ok {A} a.
Arguments Raise {A} e.

Definition bind {A B : Type} (r : result A) (k : A -> result B) : result B :=
  match r with
  | Ok a => k a
  | Raise e => Raise e
  end.

Notation "x <- r ;; k" := (bind r (fun x => k))
  (at level 61, r at next level, right associativity).

(** A list comprehension whose body may raise: the first exception wins. *)
Fixpoint comprehension {A B : Type} (f : A -> result B) (l : list A)
  : result (list B) :=
  match l with
  | [] => Ok []
  | a :: l' => b <- f a ;; bs <- comprehension f l' ;; Ok (b :: bs)
  end.

(** A matrix over [QQ]. *)
Definition qmatrix : Type := list (list Q).

Definition h : qmatrix := [[0%Q; 1 # 2]; [1 # 2; 0%Q]].
Definition y : qmatrix := [[1%Q; 1 # 2]; [1 # 2; 1%Q]].

(** [mat_dict[qf] if qf in ("h", "y") else matrix([[qf]])]. *)
Definition mat_of (b : qf) : qmatrix :=
  match b with
  | hyp2_name => h
  | y2_name => y
  | Res n => [[inject_Z n]]
  end.

(** [p ** idx]: a rational when [idx] is negative, and a division by zero
    when moreover [p] is zero. *)
Definition pow (p idx : Z) : result Q :=
  if (p =? 0) && (idx <? 0) then Raise ZeroDivisionError
  else Ok (Qpower (inject_Z p) idx).

(** [m * ZZ(2) * c]. *)
Definition scaled (m : qmatrix) (c : Q) : qmatrix :=
  map (map (fun e => (e * inject_Z 2 * c)%Q)) m.

(** The integer a rational is, if it is one. *)
Definition to_ZZ (q : Q) : result Z :=
  let r := Qred q in
  if (Qden r =? 1)%positive then Ok (Qnum r) else Raise TypeError.

(** A quadratic form over [ZZ], as the symmetric integer matrix with even
    diagonal it is built from. *)
Definition form : Type := matrix.

Definition is_symmetric (m : matrix) : bool :=
  forallb (fun r => (length r =? nrows m)%nat) m
  && forallb (fun i =>
       forallb (fun j => entry m i j =? entry m j i) (seq 0 (nrows m)))
     (seq 0 (nrows m)).

(** Modelled from the spec: Sage's constructor [QuadraticForm(ZZ, M)] is not
    among the sources.  The spec has the scaled matrix be "an integral Gram
    matrix": the constructor is modelled as accepting the symmetric integer
    matrices with even diagonal and raising on every other matrix. *)
Definition QuadraticForm_ZZ (M : qmatrix) : result form :=
  m <- comprehension (comprehension to_ZZ) M ;;
  if is_symmetric m && forallb Z.even (diagonal m) then Ok m
  else Raise TypeError.

(** Modelled from the spec: the sum of two forms ([operator.add]) is "the
    orthogonal direct sum", the block diagonal matrix of the two. *)
Definition form_add (f g : form) : form :=
  map (fun r => r ++ repeat 0 (nrows g)) f
  ++ map (fun r => repeat 0 (nrows f) ++ r) g.

(** Python's [reduce(function, sequence)] without initial value. *)
Definition reduce {A : Type} (f : A -> A -> A) (l : list A) : result A :=
  match l with
  | [] => Raise TypeError
  | x :: l' => Ok (fold_left f l' x)
  end.

Definition _blocks_to_quad_form (blcs : list blc) (p : Z) : result form :=
  let mats_w_idx := map (fun '(idx, b) => (idx, mat_of b)) blcs in
  qfs <- comprehension
           (fun '(idx, m) => c <- pow p idx ;; QuadraticForm_ZZ (scaled m c))
           mats_w_idx ;;
  reduce form_add qfs.

(* ================================================================== *)
(** ** Ranks, counts and the shape of the input *)

(** The number of integers and twice the number of strings of a list. *)
Definition reducer_rank (l : list qf) : nat :=
  (length (diag_part l) + 2 * length (non_diag_part l))%nat.

(** The rank of a block: 1 for an integer, 2 for ["h"] and ["y"]. *)
Definition rank_of (b : qf) : nat := if is_str b then 2%nat else 1%nat.

Definition total_rank (blcs : list blc) : nat :=
  list_sum (map (fun x => rank_of (snd x)) blcs).

(** The rank of the form whose scale classes are [jb]: the sum of the
    dimensions of the constituents. *)
Definition form_rank (jb : scale_classes) : nat :=
  list_sum (map (fun c => nrows (snd c)) jb).

(** The number of integer (rank 1) blocks of scale [a]. *)
Definition units_at (a : Z) (blcs : list blc) : nat :=
  length (filter (fun x => (fst x =? a) && negb (is_str (snd x))) blcs).

(** The blocks of a unimodular constituent as the decomposition delivers
    it: a 1x1 block [[u]], or a 2x2 block [[x, b], [b, z]]. *)
Inductive jblock : Type :=
| B1 (u : Z)
| B2 (x b z : Z).

Definition jblock_dim (blk : jblock) : nat :=
  match blk with
  | B1 _ => 1%nat
  | B2 _ _ _ => 2%nat
  end.

(** A 1x1 block has an odd entry; a 2x2 block has an even upper left entry
    and an odd off-diagonal entry. *)
Definition jblock_ok (blk : jblock) : bool :=
  match blk with
  | B1 u => Z.odd u
  | B2 x b _ => Z.even x && Z.odd b
  end.

(** The block diagonal Gram matrix of a list of blocks. *)
Fixpoint block_diagonal (bs : list jblock) : matrix :=
  match bs with
  | [] => []
  | B1 u :: bs' =>
    let n := nrows (block_diagonal bs') in
    (u :: repeat 0 n) :: map (cons 0) (block_diagonal bs')
  | B2 x b z :: bs' =>
    let n := nrows (block_diagonal bs') in
    (x :: b :: repeat 0 n) :: (b :: z :: repeat 0 n)
      :: map (fun r => 0 :: 0 :: r) (block_diagonal bs')
  end.

(** What the loop appends for one block of a class of scale [a]. *)
Definition emitted (a : Z) (blk : jblock) : blc :=
  match blk with
  | B1 u => (a, Res (u mod 8))
  | B2 x _ _ => if x =? 0 then (a + 1, hyp2_name) else (a + 1, y2_name)
  end.

(** The scale classes whose Gram matrices are block diagonal. *)
Definition classes_of (cls : list (Z * list jblock)) : scale_classes :=
  map (fun c => (fst c, block_diagonal (snd c))) cls.

(** [p] is 2 or an odd prime. *)
Definition valid_prime (p : Z) : Prop := Z.prime p.

(** Non-increasing scales, [a_0 >= a_1 >= ...]. *)
Definition scales_descending (blcs : list blc) : Prop :=
  StronglySorted Z.ge (map fst blcs).

(* ================================================================== *)
(** ** [_siegel_series_polynomial_2], [siegel_series_polynomial] *)

(** What a call of the polynomial routines can raise: the [IndexError] of
    [blcs[0]] on an empty list, or an exception of the lifter. *)
Inductive raised : Type :=
| IndexError
| Raised (e : exn).

(** A call returns a value or raises. *)
Inductive outcome (A : Type) : Type :=
| Returns (a : A)
| Raises (e : raised).
Arguments Returns {A} a.
Arguments Raises {A} e.

(** [[qf for idx, qf in blcs if idx == max_idx]] without the strings: the
    integers among the blocks of scale [max_idx]. *)
Definition unit_diags_at (max_idx : Z) (blcs : list blc) : list Z :=
  diag_part (map snd (filter (fun x => fst x =? max_idx) blcs)).

(** The routine computes two forms in one branch and has no [return]: it
    returns [None], here [tt], unless [blcs[0]] or the lifter raises. *)
Definition _siegel_series_polynomial_2 (blcs : list blc) : outcome unit :=
  match blcs with
  | [] => Raises IndexError
  | (max_idx, _) :: blcs' =>
    let unit_diags := unit_diags_at max_idx blcs in
    if (length unit_diags =? 1)%nat then
      match _blocks_to_quad_form blcs 2 with
      | Ok q =>
        match _blocks_to_quad_form blcs' 2 with
        | Ok q2 => Returns tt
        | Raise e => Raises (Raised e)
        end
      | Raise e => Raises (Raised e)
      end
    else Returns tt
  end.

(** The body is [pass]. *)
Definition _siegel_series_polynomial_odd (blcs : list blc) (p : Z)
  : outcome unit :=
  Returns tt.

Section Polynomial.
(** The form [q = QuadraticForm(ZZ, B * 2)] enters through its scale
    classes at [p], [q.jordan_blocks_by_scale_and_unimodular(p)], which are
    Sage's, as are the two oracles of the odd splitter. *)
Variable jordan_blocks_by_scale_and_unimodular : Z -> scale_classes.
Variable legendre_symbol : Z -> Z -> Z.
Variable least_quadratic_nonresidue : Z -> Z.

(** [None] stands for a splitter loop that did not end; there is none
    (see [jordan_blocks_2_spec]). *)
Definition siegel_series_polynomial (p : Z) : option (outcome unit) :=
  if p =? 2 then
    match jordan_blocks_2 (jordan_blocks_by_scale_and_unimodular 2) with
    | Some blcs => Some (_siegel_series_polynomial_2 blcs)
    | None => None
    end
  else
    let blcs := jordan_blocks_odd legendre_symbol least_quadratic_nonresidue
                  (jordan_blocks_by_scale_and_unimodular p) p in
    Some (_siegel_series_polynomial_odd blcs p).
End Polynomial.

(* ================================================================== *)
(** ** [q2_q2_blc] of [tests/jordan_block_test.py] *)

(** The block list without its first Jordan component, and its form. *)
Definition q2_q2_blc (blcs : list blc) : outcome (form * list blc) :=
  match blcs with
  | [] => Raises IndexError
  | (max_expt, b0) :: _ =>
    let unit_diags_first_blc := unit_diags_at max_expt blcs in
    let blcs_q2 :=
        if (length unit_diags_first_blc =? 1)%nat then skipn 1 blcs
        else if is_str b0 then skipn 1 blcs else skipn 2 blcs in
    match _blocks_to_quad_form blcs_q2 2 with
    | Ok q2 => Returns (q2, blcs_q2)
    | Raise e => Raises (Raised e)
    end
  end.

(* ================================================================== *)
(** ** Measures used in the statements *)

(** The residues of the units of a 2-adic block list. *)
Definition unit_residues : list Z := [1; 3; 5; 7].

(** The integer blocks of a list are residues in [unit_residues]. *)
Definition residues_ok (l : list qf) : Prop :=
  Forall (fun r => In r unit_residues) (diag_part l).

(** The determinant of a matrix over [QQ] of size 1 or 2. *)
Definition qdet (m : qmatrix) : Q :=
  match m with
  | [[a]] => a
  | [[a; b]; [c; d]] => (a * d - b * c)%Q
  | _ => 0%Q
  end.

(** The determinant of the matrix of a block up to the square 4: the
    integer itself, [-1] for ["h"], [3] for ["y"] (see [det_unit_spec]). *)
Definition det_unit (b : qf) : Z :=
  match b with
  | Res n => n
  | hyp2_name => -1
  | y2_name => 3
  end.

Definition list_prod (us : list Z) : Z := fold_right Z.mul 1 us.

Definition det_prod (l : list qf) : Z := list_prod (map det_unit l).

(** A block list cut back to its blocks of scale [s]. *)
Definition at_scale (s : Z) (blcs : list blc) : list blc :=
  filter (fun x => fst x =? s) blcs.

(* ================================================================== *)
(** * Properties *)

(** ** The zero-representation oracle *)

Lemma even_mod2 (w : Z) : (w mod 2 =? 0) = Z.even w.
Proof.
  rewrite Zmod_even. destruct (Z.even w); reflexivity.
Qed.

Lemma rep_zero_at_spec (a b c x y z : Z) :
  rep_zero_at a b c x y z = true <->
  ~ (Z.Even x /\ Z.Even y /\ Z.Even z) /\ (a * x + b * y + c * z) mod 8 = 0.
Proof.
  unfold rep_zero_at. cbn [existsb].
  rewrite !even_mod2, orb_false_r, andb_true_iff, Z.eqb_eq.
  rewrite <- !Z.even_spec.
  destruct (Z.even x), (Z.even y), (Z.even z); cbn; intuition congruence.
Qed.

(** C3: the oracle answers [true] exactly when some [x], [y], [z] drawn from
    {0, 1, 4}, not all even, give [a*x + b*y + c*z = 0] modulo 8.  This holds
    for all integers [a], [b], [c], in particular for those in
    {1, 3, 5, 7}. *)
Theorem does_2adically_rep_zero_iff (a b c : Z) :
  does_2adically_rep_zero a b c = true <->
  exists x y z,
    In x [0; 1; 4] /\ In y [0; 1; 4] /\ In z [0; 1; 4] /\
    ~ (Z.Even x /\ Z.Even y /\ Z.Even z) /\
    (a * x + b * y + c * z) mod 8 = 0.
Proof.
  unfold does_2adically_rep_zero. rewrite existsb_exists. split.
  - intros (x & Hx & H).
    apply existsb_exists in H as (y0 & Hy & H).
    apply existsb_exists in H as (z & Hz & H).
    apply rep_zero_at_spec in H. exists x, y0, z. tauto.
  - intros (x & y0 & z & Hx & Hy & Hz & H).
    exists x. split; [exact Hx|].
    apply existsb_exists. exists y0. split; [exact Hy|].
    apply existsb_exists. exists z. split; [exact Hz|].
    apply rep_zero_at_spec. exact H.
Qed.

Lemma does_2adically_rep_zero_iff_witness :
  does_2adically_rep_zero 1 1 7 = true.
Proof.
  apply (proj2 (does_2adically_rep_zero_iff 1 1 7)).
  exists 1, 0, 1. cbn. repeat split; auto.
  intros (_ & _ & H). destruct H as [k Hk]. lia.
Defined.

(** ** The reducer *)

Lemma diag_part_app (l1 l2 : list qf) :
  diag_part (l1 ++ l2) = diag_part l1 ++ diag_part l2.
Proof.
  induction l1 as [|[b| |] l1 IH]; cbn; rewrite ?IH; reflexivity.
Qed.

Lemma non_diag_part_app (l1 l2 : list qf) :
  non_diag_part (l1 ++ l2) = non_diag_part l1 ++ non_diag_part l2.
Proof. apply filter_app. Qed.

Lemma diag_part_map_Res (us : list Z) : diag_part (map Res us) = us.
Proof. induction us as [|u us IH]; cbn; rewrite ?IH; reflexivity. Qed.

Lemma non_diag_part_map_Res (us : list Z) : non_diag_part (map Res us) = [].
Proof. induction us as [|u us IH]; cbn; auto. Qed.

Lemma diag_part_non_diag_part (l : list qf) : diag_part (non_diag_part l) = [].
Proof. induction l as [|[b| |] l IH]; cbn; auto. Qed.

Lemma non_diag_part_idem (l : list qf) :
  non_diag_part (non_diag_part l) = non_diag_part l.
Proof.
  induction l as [|[b| |] l IH]; cbn; auto; f_equal; exact IH.
Qed.

Lemma extension_diag (u1 u2 u3 : Z) :
  length (diag_part (extension u1 u2 u3)) = 1%nat.
Proof. unfold extension. destruct does_2adically_rep_zero; reflexivity. Qed.

Lemma extension_non_diag (u1 u2 u3 : Z) :
  length (non_diag_part (extension u1 u2 u3)) = 1%nat.
Proof. unfold extension. destruct does_2adically_rep_zero; reflexivity. Qed.

(** With more calls allowed than the list is long, the recursion returns,
    and its result has at most two integers and the rank of the input. *)
Lemma trans_jordan_dec_2_fuel_spec (n : nat) :
  forall us : list Z, (length us < n)%nat ->
  exists l, trans_jordan_dec_2_fuel n us = Some l /\
            (length (diag_part l) <= 2)%nat /\
            reducer_rank l = length us.
Proof.
  unfold reducer_rank.
  induction n as [|n IH]; intros us Hlen; [lia|].
  destruct us as [|u1 [|u2 [|u3 rest]]];
    try (eexists; split; [reflexivity|];
         rewrite diag_part_map_Res, non_diag_part_map_Res; cbn; lia).
  cbn [trans_jordan_dec_2_fuel]. cbn [length] in Hlen.
  destruct (IH rest ltac:(lia)) as (l0 & -> & Hd0 & Hr0).
  unfold renormalise.
  pose proof (extension_diag u1 u2 u3) as Hed.
  pose proof (extension_non_diag u1 u2 u3) as Hen.
  rewrite diag_part_app, non_diag_part_app, !length_app.
  destruct (Nat.leb_spec (length (diag_part l0)
                          + length (diag_part (extension u1 u2 u3))) 2)
    as [Hle|Hgt].
  - eexists; split; [reflexivity|].
    rewrite diag_part_app, non_diag_part_app, !length_app. cbn [length]. lia.
  - destruct (IH (diag_part l0 ++ diag_part (extension u1 u2 u3)))
      as (l1 & -> & Hd1 & Hr1); [rewrite length_app; lia|].
    rewrite length_app in Hr1.
    eexists; split; [reflexivity|].
    rewrite !diag_part_app, !diag_part_non_diag_part, !app_nil_r.
    rewrite !non_diag_part_app, !non_diag_part_idem, !length_app.
    cbn [length]. lia.
Qed.

(** Allowing more calls does not change a result. *)
Lemma trans_jordan_dec_2_fuel_mono (n : nat) :
  forall (us : list Z) (l : list qf),
    trans_jordan_dec_2_fuel n us = Some l ->
    forall m, (n <= m)%nat -> trans_jordan_dec_2_fuel m us = Some l.
Proof.
  induction n as [|n IH]; intros us l H m Hm; [discriminate|].
  destruct m as [|m]; [lia|].
  cbn [trans_jordan_dec_2_fuel] in *.
  destruct us as [|u1 [|u2 [|u3 rest]]]; try exact H.
  destruct (trans_jordan_dec_2_fuel n rest) as [l0|] eqn:E0; [|discriminate].
  rewrite (IH _ _ E0 m) by lia.
  unfold renormalise in *.
  destruct (length (diag_part (l0 ++ extension u1 u2 u3)) <=? 2)%nat;
    [exact H|].
  destruct (trans_jordan_dec_2_fuel n (diag_part (l0 ++ extension u1 u2 u3)))
    as [l1|] eqn:E1; [|discriminate].
  rewrite (IH _ _ E1 m) by lia. exact H.
Qed.

(** The reducer returns on every list. *)
Lemma trans_jordan_dec_2_total (us : list Z) :
  exists l, _trans_jordan_dec_2 us = Some l /\
            (length (diag_part l) <= 2)%nat /\
            reducer_rank l = length us.
Proof. apply trans_jordan_dec_2_fuel_spec. lia. Qed.

(** Whatever number of calls produced a result, it is the reducer's. *)
Lemma trans_jordan_dec_2_fuel_eq (n : nat) (us : list Z) (l : list qf) :
  trans_jordan_dec_2_fuel n us = Some l -> _trans_jordan_dec_2 us = Some l.
Proof.
  intros H. destruct (trans_jordan_dec_2_total us) as (l' & Hl' & _).
  pose proof (trans_jordan_dec_2_fuel_mono _ _ _ H (n + S (length us))
                ltac:(lia)) as H1.
  pose proof (trans_jordan_dec_2_fuel_mono _ _ _ Hl' (n + S (length us))
                ltac:(lia)) as H2.
  congruence.
Qed.

Lemma residue_of_product (k u : Z) : (k * (u mod 8)) mod 8 = (k * u) mod 8.
Proof. apply Z.mul_mod_idemp_r. lia. Qed.

Lemma extension_mod8 (u1 u2 u3 : Z) :
  extension u1 u2 u3 =
  let u := (u1 * u2 * u3) mod 8 in
  if does_2adically_rep_zero u1 u2 u3
  then [Res ((- u) mod 8); hyp2_name]
  else [Res ((3 * u) mod 8); y2_name].
Proof.
  unfold extension. cbv zeta.
  rewrite residue_of_product.
  replace (- ((u1 * u2 * u3) mod 8)) with (-1 * ((u1 * u2 * u3) mod 8))
    by lia.
  rewrite residue_of_product.
  replace (-1 * (u1 * u2 * u3)) with (- (u1 * u2 * u3)) by lia.
  reflexivity.
Qed.

Lemma trans_jordan_dec_2_fuel_step (n : nat) (u1 u2 u3 : Z) (rest : list Z) :
  trans_jordan_dec_2_fuel (S n) (u1 :: u2 :: u3 :: rest) =
  match trans_jordan_dec_2_fuel n rest with
  | Some l0 =>
    renormalise (trans_jordan_dec_2_fuel n) (l0 ++ extension u1 u2 u3)
  | None => None
  end.
Proof. reflexivity. Qed.

(** The equation of [_trans_jordan_dec_2] on a list of three or more
    elements, in terms of the reducer itself. *)
Lemma trans_jordan_dec_2_unfold (u1 u2 u3 : Z) (rest : list Z) :
  exists l0,
    _trans_jordan_dec_2 rest = Some l0 /\
    _trans_jordan_dec_2 (u1 :: u2 :: u3 :: rest) =
    renormalise _trans_jordan_dec_2 (l0 ++ extension u1 u2 u3).
Proof.
  destruct (trans_jordan_dec_2_total rest) as (l0 & E0 & _).
  exists l0. split; [exact E0|].
  destruct (trans_jordan_dec_2_total (u1 :: u2 :: u3 :: rest))
    as (out & Eout & _).
  rewrite Eout. unfold _trans_jordan_dec_2 in Eout.
  rewrite trans_jordan_dec_2_fuel_step in Eout.
  rewrite (trans_jordan_dec_2_fuel_mono _ _ _ E0) in Eout
    by (cbn [length]; lia).
  unfold renormalise in *.
  destruct (length (diag_part (l0 ++ extension u1 u2 u3)) <=? 2)%nat;
    [congruence|].
  destruct (trans_jordan_dec_2_fuel _
              (diag_part (l0 ++ extension u1 u2 u3))) as [l1|] eqn:E1;
    [|discriminate].
  rewrite (trans_jordan_dec_2_fuel_eq _ _ _ E1). congruence.
Qed.

(** C2: on a list of at least three elements the reducer takes the first
    three, [u1], [u2], [u3], and with [u = u1*u2*u3 mod 8] puts in their place
    the residue [(-u) mod 8] and an ["h"] when the oracle holds of them, and
    the residue [(3*u) mod 8] and a ["y"] otherwise, behind the reduced rest
    of the list.  That list is the result when it has at most two residues;
    otherwise its residues are reduced again and its markers follow them. *)
Theorem trans_jordan_dec_2_triple (u1 u2 u3 : Z) (rest : list Z) :
  exists l0,
    _trans_jordan_dec_2 rest = Some l0 /\
    let u := (u1 * u2 * u3) mod 8 in
    let l := l0 ++ (if does_2adically_rep_zero u1 u2 u3
                    then [Res ((- u) mod 8); hyp2_name]
                    else [Res ((3 * u) mod 8); y2_name]) in
    if (length (diag_part l) <=? 2)%nat
    then _trans_jordan_dec_2 (u1 :: u2 :: u3 :: rest) = Some l
    else exists l1,
        _trans_jordan_dec_2 (diag_part l) = Some l1 /\
        _trans_jordan_dec_2 (u1 :: u2 :: u3 :: rest)
        = Some (l1 ++ non_diag_part l).
Proof.
  destruct (trans_jordan_dec_2_unfold u1 u2 u3 rest) as (l0 & E0 & E).
  exists l0. split; [exact E0|].
  rewrite extension_mod8 in E. cbv zeta in *.
  unfold renormalise in E.
  destruct (length (diag_part _) <=? 2)%nat; [exact E|].
  match type of E with
  | context [_trans_jordan_dec_2 (diag_part ?l)] =>
    destruct (trans_jordan_dec_2_total (diag_part l)) as (l1 & E1 & _)
  end.
  exists l1. split; [exact E1|]. rewrite E1 in E. exact E.
Qed.

(** C7: on every list of [n] residues the reducer returns, and the number
    of residues of its result plus twice the number of its markers is
    [n]. *)
Theorem trans_jordan_dec_2_rank (us : list Z) :
  exists l,
    _trans_jordan_dec_2 us = Some l /\
    (length (diag_part l) + 2 * length (non_diag_part l))%nat = length us.
Proof.
  destruct (trans_jordan_dec_2_total us) as (l & E & _ & Hr).
  exists l. split; [exact E | exact Hr].
Qed.

(** ** The loop over a Gram matrix *)

Lemma nrows_submatrix (row col : nat) (m : matrix) :
  nrows (submatrix row col m) = (nrows m - row)%nat.
Proof. unfold nrows, submatrix. rewrite length_map, length_skipn. reflexivity. Qed.

Lemma is_zero_nonempty (m : matrix) : is_zero m = false -> (0 < nrows m)%nat.
Proof. destruct m; cbn; [discriminate | lia]. Qed.

(** One turn of the loop on a matrix that is not zero. *)
Lemma while_not_zero_step (fuel : nat) (a : Z) (m : matrix) :
  is_zero m = false ->
  while_not_zero (S fuel) a m =
  if Z.odd (entry m 0 0) then
    option_map (cons (a, Res (entry m 0 0 mod 8)))
               (while_not_zero fuel a (submatrix 1 1 m))
  else if entry m 0 0 =? 0 then
    option_map (cons (a + 1, hyp2_name))
               (while_not_zero fuel a (submatrix 2 2 m))
  else
    option_map (cons (a + 1, y2_name))
               (while_not_zero fuel a (submatrix 2 2 m)).
Proof. intros Hnz. cbn [while_not_zero]. rewrite Hnz. reflexivity. Qed.

(** As many turns as the matrix has rows are enough, and more turns give
    the same list. *)
Lemma while_not_zero_fuel (fuel : nat) :
  forall (a : Z) (m : matrix), (nrows m <= fuel)%nat ->
  exists l, while_not_zero fuel a m = Some l /\
            class_blocks a m = Some l.
Proof.
  induction fuel as [fuel IH] using lt_wf_ind. intros a m Hfuel.
  unfold class_blocks.
  destruct (is_zero m) eqn:Hnz.
  { exists []. destruct fuel, (nrows m); cbn; rewrite Hnz; auto. }
  pose proof (is_zero_nonempty m Hnz) as Hpos.
  destruct fuel as [|fuel]; [lia|].
  destruct (nrows m) as [|k] eqn:Hk; [lia|].
  rewrite !while_not_zero_step by exact Hnz.
  assert (H1 : exists l, while_not_zero fuel a (submatrix 1 1 m) = Some l /\
                         while_not_zero k a (submatrix 1 1 m) = Some l).
  { destruct (IH fuel ltac:(lia) a (submatrix 1 1 m)) as (l & E1 & E2);
      [rewrite nrows_submatrix; lia|].
    destruct (IH k ltac:(lia) a (submatrix 1 1 m)) as (l' & E1' & E2');
      [rewrite nrows_submatrix; lia|].
    exists l. split; congruence. }
  assert (H2 : exists l, while_not_zero fuel a (submatrix 2 2 m) = Some l /\
                         while_not_zero k a (submatrix 2 2 m) = Some l).
  { destruct (IH fuel ltac:(lia) a (submatrix 2 2 m)) as (l & E1 & E2);
      [rewrite nrows_submatrix; lia|].
    destruct (IH k ltac:(lia) a (submatrix 2 2 m)) as (l' & E1' & E2');
      [rewrite nrows_submatrix; lia|].
    exists l. split; congruence. }
  destruct H1 as (l1 & -> & ->), H2 as (l2 & -> & ->).
  destruct (Z.odd _); [|destruct (_ =? 0)]; eexists; split; reflexivity.
Qed.

(** The loop returns on every matrix. *)
Lemma class_blocks_total (a : Z) (m : matrix) :
  exists l, class_blocks a m = Some l.
Proof.
  destruct (while_not_zero_fuel (nrows m) a m (Nat.le_refl _)) as (l & _ & E).
  exists l. exact E.
Qed.

(** The equation of the loop on a matrix that is not zero. *)
Lemma class_blocks_step (a : Z) (m : matrix) :
  is_zero m = false ->
  class_blocks a m =
  if Z.odd (entry m 0 0) then
    option_map (cons (a, Res (entry m 0 0 mod 8)))
               (class_blocks a (submatrix 1 1 m))
  else if entry m 0 0 =? 0 then
    option_map (cons (a + 1, hyp2_name)) (class_blocks a (submatrix 2 2 m))
  else
    option_map (cons (a + 1, y2_name)) (class_blocks a (submatrix 2 2 m)).
Proof.
  intros Hnz. pose proof (is_zero_nonempty m Hnz) as Hpos.
  unfold class_blocks at 1.
  destruct (nrows m) as [|k] eqn:Hk; [lia|].
  rewrite while_not_zero_step by exact Hnz.
  destruct (while_not_zero_fuel k a (submatrix 1 1 m)) as (l1 & -> & ->);
    [rewrite nrows_submatrix; lia|].
  destruct (while_not_zero_fuel k a (submatrix 2 2 m)) as (l2 & -> & ->);
    [rewrite nrows_submatrix; lia|].
  reflexivity.
Qed.

Lemma class_blocks_zero (a : Z) (m : matrix) :
  is_zero m = true -> class_blocks a m = Some [].
Proof.
  intros Hz. unfold class_blocks. destruct (nrows m); cbn; rewrite Hz; auto.
Qed.

Lemma skipn_block_rows (k : nat) (zs : list Z) (m : matrix) :
  length zs = k -> map (skipn k) (map (app zs) m) = m.
Proof.
  intros <-. rewrite map_map. rewrite <- (map_id m) at 2.
  apply map_ext. intros r. rewrite skipn_app, skipn_all, Nat.sub_diag.
  reflexivity.
Qed.

Lemma submatrix_B1 (u : Z) (bs : list jblock) :
  submatrix 1 1 (block_diagonal (B1 u :: bs)) = block_diagonal bs.
Proof.
  unfold submatrix. cbn [block_diagonal skipn].
  apply (skipn_block_rows 1 [0]). reflexivity.
Qed.

Lemma submatrix_B2 (x b z : Z) (bs : list jblock) :
  submatrix 2 2 (block_diagonal (B2 x b z :: bs)) = block_diagonal bs.
Proof.
  unfold submatrix. cbn [block_diagonal skipn].
  apply (skipn_block_rows 2 [0; 0]). reflexivity.
Qed.

Lemma odd_nonzero (u : Z) : Z.odd u = true -> (0 =? u) = false.
Proof. intros H. apply Z.eqb_neq. intros <-. discriminate. Qed.

Lemma block_diagonal_not_zero (blk : jblock) (bs : list jblock) :
  jblock_ok blk = true -> is_zero (block_diagonal (blk :: bs)) = false.
Proof.
  destruct blk as [u|x b z]; cbn [jblock_ok block_diagonal is_zero forallb].
  - intros H. rewrite (odd_nonzero u H). reflexivity.
  - intros H. apply andb_true_iff in H as [_ H].
    rewrite (odd_nonzero b H), andb_false_r. reflexivity.
Qed.

Lemma nrows_block_diagonal (bs : list jblock) :
  nrows (block_diagonal bs) = list_sum (map jblock_dim bs).
Proof.
  unfold nrows. induction bs as [|[u|x b z] bs IH];
    cbn [block_diagonal map list_sum jblock_dim length];
    rewrite ?length_map, ?IH; reflexivity.
Qed.

(** On a block diagonal matrix of admissible blocks the loop appends one
    tuple for each block, in order. *)
Lemma class_blocks_block_diagonal (a : Z) (bs : list jblock) :
  forallb jblock_ok bs = true ->
  class_blocks a (block_diagonal bs) = Some (map (emitted a) bs).
Proof.
  induction bs as [|blk bs IH]; intros Hok; [reflexivity|].
  cbn [forallb] in Hok. apply andb_true_iff in Hok as [Hblk Hbs].
  rewrite class_blocks_step by (apply block_diagonal_not_zero; exact Hblk).
  destruct blk as [u|x b z]; cbn [jblock_ok] in Hblk.
  - change (entry (block_diagonal (B1 u :: bs)) 0 0) with u.
    rewrite Hblk, submatrix_B1, (IH Hbs). reflexivity.
  - change (entry (block_diagonal (B2 x b z :: bs)) 0 0) with x.
    apply andb_true_iff in Hblk as [Hx _].
    rewrite <- Z.negb_even, Hx, submatrix_B2, (IH Hbs). cbn [negb map emitted].
    destruct (x =? 0); reflexivity.
Qed.

(** The tuples the first loop appends for block diagonal scale classes. *)
Lemma first_pass_block_diagonal (cls : list (Z * list jblock)) :
  Forall (fun c => forallb jblock_ok (snd c) = true) cls ->
  first_pass (classes_of cls)
  = Some (flat_map (fun c => map (emitted (fst c)) (snd c)) cls).
Proof.
  induction 1 as [|[a bs] cls Hc Hcls IH]; [reflexivity|].
  cbn [classes_of map first_pass fst snd flat_map] in *.
  fold (classes_of cls). rewrite (class_blocks_block_diagonal a bs Hc), IH.
  reflexivity.
Qed.

(** C4: for p = 2 the splitter treats a scale class [(a, m)] by looking at
    the upper left entry [m00] of the matrix that is left: an odd [m00] gives
    the unit [(a, m00 mod 8)] and removes one row and column, [m00 = 0] gives
    ["h"] at scale [a + 1] and any other even [m00] gives ["y"] at scale
    [a + 1], both removing two rows and columns; the blocks of the rest of
    the matrix follow.  On the Gram matrices of unimodular constituents
    (block diagonal, blocks as in [jblock_ok]) this goes on until every block
    of the class is consumed, and the classes are treated one after the
    other.  The loop itself ends when the matrix that is left is zero. *)
Theorem jordan_blocks_2_peeling
        (a : Z) (m m0 : matrix) (cls : list (Z * list jblock)) :
  (is_zero m0 = true -> class_blocks a m0 = Some []) /\
  (is_zero m = false ->
   let m00 := entry m 0 0 in
   exists rest,
     class_blocks a (if Z.odd m00 then submatrix 1 1 m else submatrix 2 2 m)
     = Some rest /\
     class_blocks a m
     = Some ((if Z.odd m00 then (a, Res (m00 mod 8))
              else if m00 =? 0 then (a + 1, hyp2_name)
                   else (a + 1, y2_name)) :: rest)) /\
  (Forall (fun c => forallb jblock_ok (snd c) = true) cls ->
   first_pass (classes_of cls)
   = Some (flat_map (fun c => map (emitted (fst c)) (snd c)) cls) /\
   Forall (fun c => nrows (block_diagonal (snd c))
                    = list_sum (map jblock_dim (snd c))) cls).
Proof.
  split; [apply class_blocks_zero|]. split.
  - intros Hnz m00. subst m00. rewrite (class_blocks_step a m Hnz).
    destruct (Z.odd (entry m 0 0)).
    + destruct (class_blocks_total a (submatrix 1 1 m)) as (rest & E).
      exists rest. rewrite E. auto.
    + destruct (class_blocks_total a (submatrix 2 2 m)) as (rest & E).
      exists rest. rewrite E. destruct (_ =? 0); auto.
  - intros Hok. split; [apply first_pass_block_diagonal; exact Hok|].
    apply Forall_forall. intros c _. apply nrows_block_diagonal.
Qed.

Lemma jordan_blocks_2_peeling_witness :
  class_blocks 0 [[0; 0]; [0; 0]] = Some [] /\
  class_blocks 0 [[3; 0; 0]; [0; 2; 1]; [0; 1; 2]]
  = Some [(0, Res 3); (1, y2_name)] /\
  first_pass (classes_of [(0, [B1 1; B1 7]); (1, [B1 5; B2 0 1 0; B2 2 1 2])])
  = Some [(0, Res 1); (0, Res 7); (1, Res 5); (2, hyp2_name); (2, y2_name)].
Proof.
  pose proof (jordan_blocks_2_peeling 0 [[3; 0; 0]; [0; 2; 1]; [0; 1; 2]]
                [[0; 0]; [0; 0]]
                [(0, [B1 1; B1 7]); (1, [B1 5; B2 0 1 0; B2 2 1 2])])
    as (Hzero & Hstep & Hall).
  split; [exact (Hzero eq_refl)|]. split.
  - destruct (Hstep eq_refl) as (rest & Hrest & Hm).
    rewrite Hm. cbn in Hrest. injection Hrest as <-. reflexivity.
  - destruct Hall as [Hfirst _].
    + repeat constructor.
    + exact Hfirst.
Defined.

(** ** Sorting and grouping *)

Section SortingFacts.
Context {A : Type} (key : A -> Z).

Lemma insert_by_perm (x : A) (l : list A) :
  Permutation (insert_by key x l) (x :: l).
Proof.
  induction l as [|x' l IH]; cbn; [reflexivity|].
  destruct (key x <=? key x'); [reflexivity|].
  rewrite IH. apply perm_swap.
Qed.

Lemma sorted_perm (l : list A) : Permutation (sorted key l) l.
Proof.
  induction l as [|x l IH]; cbn; [reflexivity|].
  rewrite insert_by_perm, IH. reflexivity.
Qed.

Lemma insert_by_sorted (x : A) (l : list A) :
  Sorted (key_le key) l -> Sorted (key_le key) (insert_by key x l).
Proof.
  induction 1 as [|x' l Hl IH Hhd]; cbn; [repeat constructor|].
  destruct (Z.leb_spec (key x) (key x')) as [Hle|Hgt].
  - repeat constructor; assumption.
  - constructor; [exact IH|].
    destruct Hhd as [|x'' l Hx'']; cbn.
    + constructor. unfold key_le. lia.
    + destruct (key x <=? key x''); constructor; unfold key_le in *; lia.
Qed.

Lemma sorted_sorted (l : list A) : StronglySorted (key_le key) (sorted key l).
Proof.
  apply Sorted_StronglySorted.
  - intros a b c. unfold key_le. lia.
  - induction l as [|x l IH]; cbn; [constructor|].
    apply insert_by_sorted. exact IH.
Qed.

(** Every group key is the key of an element of the list. *)
Lemma groupby_key_in (l : list A) (k : Z) :
  In k (map fst (groupby key l)) -> In k (map key l).
Proof.
  revert k. induction l as [|x l IH]; intros k; cbn; [tauto|].
  destruct (groupby key l) as [|[k' g] gs]; cbn in *.
  - tauto.
  - destruct (key x =? k'); cbn; intros [H|H]; auto.
Qed.

(** The groups of a list that is sorted by the key have increasing
    keys. *)
Lemma groupby_keys_increasing (l : list A) :
  StronglySorted (key_le key) l ->
  StronglySorted Z.lt (map fst (groupby key l)).
Proof.
  induction 1 as [|x l Hl IH Hx]; cbn; [constructor|].
  pose proof (groupby_key_in l) as Hin.
  destruct (groupby key l) as [|[k g] gs]; cbn in *.
  - repeat constructor.
  - destruct (Z.eqb_spec (key x) k) as [Hk|Hk]; cbn; [exact IH|].
    constructor; [exact IH|].
    assert (Hle : forall k', In k' (k :: map fst gs) -> key x <= k').
    { intros k' Hk'. apply Hin in Hk'. apply in_map_iff in Hk'.
      destruct Hk' as (x' & <- & Hx').
      rewrite Forall_forall in Hx. apply Hx. exact Hx'. }
    pose proof (Hle k (or_introl eq_refl)) as Hxk.
    inversion IH as [|? ? _ Hgs]; subst.
    constructor; [lia|].
    rewrite Forall_forall in *. intros k' Hk'.
    specialize (Hgs k' Hk'). lia.
Qed.

(** The groups together have the elements of the list. *)
Lemma groupby_lengths (l : list A) :
  list_sum (map (fun kg => length (snd kg)) (groupby key l)) = length l.
Proof.
  induction l as [|x l IH]; cbn; [reflexivity|].
  destruct (groupby key l) as [|[k g] gs]; cbn in *.
  - rewrite <- IH. reflexivity.
  - destruct (key x =? k); cbn; lia.
Qed.

Lemma list_group_by_lengths (l : list A) :
  list_sum (map (fun kg => length (snd kg)) (list_group_by l key))
  = length l.
Proof.
  unfold list_group_by. rewrite groupby_lengths.
  apply Permutation_length, sorted_perm.
Qed.

Lemma list_group_by_keys (l : list A) :
  StronglySorted Z.lt (map fst (list_group_by l key)).
Proof. apply groupby_keys_increasing, sorted_sorted. Qed.
End SortingFacts.

Lemma filter_none {B : Type} (f : B -> bool) (l : list B) :
  (forall x, In x l -> f x = false) -> filter f l = [].
Proof.
  induction l as [|x l IH]; cbn; intros H; [reflexivity|].
  rewrite (H x (or_introl eq_refl)). apply IH. intros x' Hx'. apply H. auto.
Qed.

(** Among increasing keys at most one equals [a]. *)
Lemma increasing_keys_once {B : Type} (a : Z) (gs : list (Z * B)) :
  StronglySorted Z.lt (map fst gs) ->
  (length (filter (fun kg => (fst kg =? a)%Z) gs) <= 1)%nat.
Proof.
  induction gs as [|[k g] gs IH]; cbn; [lia|].
  intros H. inversion H as [|? ? Hgs Hk]; subst.
  specialize (IH Hgs).
  destruct (Z.eqb_spec k a) as [->|_]; cbn; [|exact IH].
  assert (filter (fun kg : Z * B => fst kg =? a) gs = []) as ->; [|cbn; lia].
  apply filter_none. intros [k' g'] Hin. cbn.
  rewrite Forall_forall in Hk.
  specialize (Hk k' (in_map fst _ _ Hin)).
  apply Z.eqb_neq. lia.
Qed.

(** ** Counting blocks *)

Lemma total_rank_app (l1 l2 : list blc) :
  total_rank (l1 ++ l2) = (total_rank l1 + total_rank l2)%nat.
Proof. unfold total_rank. rewrite map_app, list_sum_app. reflexivity. Qed.

Lemma total_rank_perm (l1 l2 : list blc) :
  Permutation l1 l2 -> total_rank l1 = total_rank l2.
Proof.
  intros H. unfold total_rank.
  apply Permutation_list_sum, Permutation_map, H.
Qed.

Lemma units_at_app (a : Z) (l1 l2 : list blc) :
  units_at a (l1 ++ l2) = (units_at a l1 + units_at a l2)%nat.
Proof. unfold units_at. rewrite filter_app, length_app. reflexivity. Qed.

Lemma units_at_perm (a : Z) (l1 l2 : list blc) :
  Permutation l1 l2 -> units_at a l1 = units_at a l2.
Proof.
  unfold units_at.
  induction 1 as [|x l1 l2 _ IH|x x' l|l1 l2 l3 _ IH1 _ IH2]; cbn.
  - reflexivity.
  - destruct (_ && _); cbn; rewrite IH; reflexivity.
  - destruct (_ && _), (_ && _); reflexivity.
  - congruence.
Qed.

Lemma units_at_str_elts (a : Z) (ls : list blc) :
  units_at a (str_elts ls) = 0%nat.
Proof.
  unfold units_at, str_elts.
  induction ls as [|[a' [b| |]] ls IH]; cbn; auto;
    rewrite andb_false_r; exact IH.
Qed.

Lemma total_rank_split (ls : list blc) :
  (total_rank (str_elts ls) + length (diag_elts ls))%nat = total_rank ls.
Proof.
  unfold total_rank, str_elts, list_sum.
  induction ls as [|[a [b| |]] ls IH]; cbn in *; lia.
Qed.

Lemma units_at_retag (a k : Z) (l : list qf) :
  units_at a (map (retag k) l)
  = if k =? a then length (diag_part l) else 0%nat.
Proof.
  unfold units_at.
  induction l as [|[b| |] l IH]; cbn.
  - destruct (k =? a); reflexivity.
  - rewrite andb_true_r. destruct (k =? a); cbn; rewrite IH; reflexivity.
  - rewrite andb_false_r. exact IH.
  - rewrite andb_false_r. exact IH.
Qed.

Lemma total_rank_retag (k : Z) (l : list qf) :
  total_rank (map (retag k) l) = reducer_rank l.
Proof.
  unfold total_rank, reducer_rank, non_diag_part, list_sum.
  induction l as [|[b| |] l IH]; cbn in *; lia.
Qed.

(** The second loop returns; each group contributes at most two units, all
    at the scale of the group, and as much rank as it has elements. *)
Lemma regroup_spec (gs : list (Z * list (Z * Z))) :
  exists r,
    regroup gs = Some r /\
    (forall a, (units_at a r
                <= 2 * length (filter (fun kg => (fst kg =? a)%Z) gs))%nat) /\
    total_rank r = list_sum (map (fun kg => length (snd kg)) gs).
Proof.
  induction gs as [|[k us_w_idx] gs (r & Er & Hu & Hr)].
  - exists []. cbn. repeat split; auto.
  - cbn [regroup].
    destruct (trans_jordan_dec_2_total (map snd us_w_idx))
      as (l & -> & Hd & Hrk).
    rewrite Er. eexists. split; [reflexivity|]. split.
    + intros a. rewrite units_at_app, units_at_retag. specialize (Hu a).
      cbn [filter fst]. destruct (k =? a); cbn [length]; lia.
    + rewrite total_rank_app, total_rank_retag, Hrk, Hr, length_map.
      reflexivity.
Qed.

Lemma first_pass_total (jb : scale_classes) :
  exists ls, first_pass jb = Some ls.
Proof.
  induction jb as [|[a m] jb (ls & E)]; cbn; [eauto|].
  destruct (class_blocks_total a m) as (l & ->). rewrite E. eauto.
Qed.

(** The 2-adic splitter returns on every list of scale classes; its result
    is sorted by the negated scale, and permutes the strings of the first
    loop and the output [r] of the second. *)
Lemma jordan_blocks_2_spec (jb : scale_classes) :
  exists ls r res,
    first_pass jb = Some ls /\
    jordan_blocks_2 jb = Some res /\
    Permutation res (str_elts ls ++ r) /\
    StronglySorted (key_le (fun x => - fst x)) res /\
    (forall a, (units_at a r <= 2)%nat) /\
    total_rank r = length (diag_elts ls).
Proof.
  destruct (first_pass_total jb) as (ls & Els).
  destruct (regroup_spec (list_group_by (diag_elts ls) fst))
    as (r & Er & Hu & Hr).
  exists ls, r. eexists. unfold jordan_blocks_2. rewrite Els, Er.
  split; [reflexivity|]. split; [reflexivity|].
  split; [apply sorted_perm|]. split; [apply sorted_sorted|]. split.
  - intros a. specialize (Hu a).
    pose proof (increasing_keys_once a _
                  (list_group_by_keys fst (diag_elts ls))). lia.
  - rewrite Hr. apply list_group_by_lengths.
Qed.

(** C5: the block list of the 2-adic splitter has at most two integer
    (rank 1) blocks at every scale [a], and the result of the reducer never
    has more than two residues. *)
Theorem jordan_blocks_2_at_most_two_units (jb : scale_classes) (us : list Z) :
  (exists res, jordan_blocks_2 jb = Some res /\
               forall a, (units_at a res <= 2)%nat) /\
  (exists l, _trans_jordan_dec_2 us = Some l /\
             (length (diag_part l) <= 2)%nat).
Proof.
  split.
  - destruct (jordan_blocks_2_spec jb)
      as (ls & r & res & _ & Eres & Hperm & _ & Hu & _).
    exists res. split; [exact Eres|]. intros a.
    rewrite (units_at_perm a _ _ Hperm), units_at_app, units_at_str_elts.
    apply Hu.
  - destruct (trans_jordan_dec_2_total us) as (l & E & Hd & _).
    exists l. auto.
Qed.

(** ** Rank *)

Lemma total_rank_emitted (a : Z) (bs : list jblock) :
  total_rank (map (emitted a) bs) = list_sum (map jblock_dim bs).
Proof.
  unfold total_rank, list_sum.
  induction bs as [|[u|x b z] bs IH]; cbn in *; [reflexivity|lia|].
  destruct (x =? 0); cbn; lia.
Qed.

Lemma total_rank_first_pass (cls : list (Z * list jblock)) :
  total_rank (flat_map (fun c => map (emitted (fst c)) (snd c)) cls)
  = form_rank (classes_of cls).
Proof.
  unfold form_rank, classes_of.
  induction cls as [|[a bs] cls IH]; [reflexivity|].
  cbn [flat_map map fst snd list_sum].
  rewrite total_rank_app, total_rank_emitted, IH, nrows_block_diagonal.
  reflexivity.
Qed.

Lemma length_diagonal (m : matrix) :
  ncols m = nrows m -> length (diagonal m) = nrows m.
Proof.
  intros H. unfold diagonal. rewrite length_map, length_seq, H. lia.
Qed.

Lemma total_rank_units (f : Z -> blc) (ts : list Z) :
  (forall t, is_str (snd (f t)) = false) ->
  total_rank (map f ts) = length ts.
Proof.
  intros Hf. unfold total_rank, list_sum, rank_of.
  induction ts as [|t ts IH]; cbn in *; [reflexivity|].
  rewrite Hf, IH. reflexivity.
Qed.

Lemma total_rank_jordan_blocks_odd
      (legendre_symbol : Z -> Z -> Z) (least_quadratic_nonresidue : Z -> Z)
      (jb : scale_classes) (p : Z) :
  total_rank (jordan_blocks_odd legendre_symbol least_quadratic_nonresidue
                                jb p)
  = list_sum (map (fun c => length (diagonal (snd c))) jb).
Proof.
  unfold jordan_blocks_odd.
  rewrite (total_rank_perm _ _ (Permutation_sym (Permutation_rev _))).
  induction jb as [|[a m] jb IH]; [reflexivity|].
  cbn [flat_map map snd]. rewrite total_rank_app, IH.
  rewrite total_rank_units; [reflexivity|]. intros t.
  destruct (_ =? 1); reflexivity.
Qed.

(** C6: the ranks of the blocks the splitters return (1 for an integer, 2
    for ["h"] and ["y"]) add up to the rank of the form, the sum of the
    dimensions of its scale classes: for p = 2 on the block diagonal Gram
    matrices of unimodular constituents, for the other primes on square Gram
    matrices. *)
Theorem split_rank_preserved
        (legendre_symbol : Z -> Z -> Z) (least_quadratic_nonresidue : Z -> Z)
        (cls : list (Z * list jblock)) (jb : scale_classes) (p : Z) :
  (Forall (fun c => forallb jblock_ok (snd c) = true) cls ->
   exists res, jordan_blocks_2 (classes_of cls) = Some res /\
               total_rank res = form_rank (classes_of cls)) /\
  (Forall (fun c => ncols (snd c) = nrows (snd c)) jb ->
   total_rank (jordan_blocks_odd legendre_symbol least_quadratic_nonresidue
                                 jb p)
   = form_rank jb).
Proof.
  split; [intros Hcls | intros Hjb].
  - destruct (jordan_blocks_2_spec (classes_of cls))
      as (ls & r & res & Els & Eres & Hperm & _ & _ & Hr).
    exists res. split; [exact Eres|].
    rewrite (total_rank_perm _ _ Hperm), total_rank_app, Hr, total_rank_split.
    rewrite (first_pass_block_diagonal cls Hcls) in Els.
    injection Els as <-. apply total_rank_first_pass.
  - rewrite total_rank_jordan_blocks_odd. unfold form_rank. f_equal.
    apply map_ext_in. intros c Hc. apply length_diagonal.
    rewrite Forall_forall in Hjb. apply Hjb, Hc.
Qed.

Lemma split_rank_preserved_witness :
  (exists res,
      jordan_blocks_2
        (classes_of [(0, [B1 1; B1 1; B1 1; B1 1]); (1, [B1 3; B2 2 1 2])])
      = Some res /\
      total_rank res = 7%nat) /\
  total_rank (jordan_blocks_odd euler_legendre search_nonresidue
                [(0, [[1; 0]; [0; 2]]); (1, [[5]])] 3)
  = 3%nat.
Proof.
  destruct (split_rank_preserved euler_legendre search_nonresidue
              [(0, [B1 1; B1 1; B1 1; B1 1]); (1, [B1 3; B2 2 1 2])]
              [(0, [[1; 0]; [0; 2]]); (1, [[5]])] 3) as [H2 Hodd].
  split.
  - apply H2. repeat constructor.
  - apply Hodd. repeat constructor.
Defined.

(** ** Order of the scales *)

Lemma StronglySorted_app {B : Type} (R : B -> B -> Prop) (l1 l2 : list B) :
  StronglySorted R l1 -> StronglySorted R l2 ->
  (forall x x', In x l1 -> In x' l2 -> R x x') ->
  StronglySorted R (l1 ++ l2).
Proof.
  induction 1 as [|x l1 Hl1 IH Hx]; intros Hl2 Hcross; [exact Hl2|].
  cbn. constructor.
  - apply IH; [exact Hl2|]. intros; apply Hcross; cbn; auto.
  - apply Forall_app. split; [exact Hx|].
    apply Forall_forall. intros x' Hx'. apply Hcross; cbn; auto.
Qed.

Lemma StronglySorted_rev_ge (l : list Z) :
  StronglySorted Z.le l -> StronglySorted Z.ge (rev l).
Proof.
  induction 1 as [|x l Hl IH Hx]; cbn; [constructor|].
  apply StronglySorted_app; [exact IH|repeat constructor|].
  intros x1 x2 H1 [<-|[]]. apply in_rev in H1.
  rewrite Forall_forall in Hx. specialize (Hx x1 H1). lia.
Qed.

Lemma sorted_by_negated_scale (res : list blc) :
  StronglySorted (key_le (fun x => - fst x)) res -> scales_descending res.
Proof.
  unfold scales_descending.
  induction 1 as [|x l Hl IH Hx]; cbn; constructor; [exact IH|].
  apply Forall_forall. intros a Ha. apply in_map_iff in Ha as (x' & <- & Hx').
  rewrite Forall_forall in Hx. specialize (Hx x' Hx').
  unfold key_le in Hx. lia.
Qed.

Lemma scales_jordan_blocks_odd
      (legendre_symbol : Z -> Z -> Z) (least_quadratic_nonresidue : Z -> Z)
      (jb : scale_classes) (p : Z) :
  map fst (jordan_blocks_odd legendre_symbol least_quadratic_nonresidue jb p)
  = rev (flat_map (fun c => repeat (fst c) (length (diagonal (snd c)))) jb).
Proof.
  unfold jordan_blocks_odd. rewrite map_rev. f_equal.
  induction jb as [|[a m] jb IH]; [reflexivity|].
  cbn [flat_map fst snd]. rewrite map_app, IH. f_equal.
  induction (diagonal m) as [|t ts IHt]; [reflexivity|]. cbn.
  rewrite IHt. destruct (_ =? 1); reflexivity.
Qed.

Lemma repeated_scales_ascending (jb : scale_classes) :
  StronglySorted Z.le (map fst jb) ->
  StronglySorted Z.le
    (flat_map (fun c => repeat (fst c) (length (diagonal (snd c)))) jb).
Proof.
  induction jb as [|[a m] jb IH]; cbn [map flat_map fst snd];
    [constructor|].
  intros H. inversion H as [|? ? Hjb Ha]; subst.
  apply StronglySorted_app.
  - induction (length (diagonal m)) as [|n IHn]; cbn; constructor;
      [exact IHn|].
    apply Forall_forall. intros x Hx. apply repeat_spec in Hx. lia.
  - apply IH, Hjb.
  - intros x x' Hx Hx'. apply repeat_spec in Hx. subst x.
    apply in_flat_map in Hx' as ([a' m'] & Hin & Hrep).
    apply repeat_spec in Hrep. subst x'.
    rewrite Forall_forall in Ha. apply Ha.
    apply (in_map fst) in Hin. exact Hin.
Qed.

(** C8: both splitters return a list sorted by non-increasing scale: the
    2-adic one on every input, the one for odd primes when the scale
    classes come in ascending order of scale. *)
Theorem block_lists_descending
        (legendre_symbol : Z -> Z -> Z) (least_quadratic_nonresidue : Z -> Z)
        (jb : scale_classes) (p : Z) :
  (StronglySorted Z.le (map fst jb) ->
   scales_descending
     (jordan_blocks_odd legendre_symbol least_quadratic_nonresidue jb p)) /\
  (exists res, jordan_blocks_2 jb = Some res /\ scales_descending res).
Proof.
  split; [intros Hasc|].
  - unfold scales_descending. rewrite scales_jordan_blocks_odd.
    apply StronglySorted_rev_ge, repeated_scales_ascending, Hasc.
  - destruct (jordan_blocks_2_spec jb)
      as (ls & r & res & _ & Eres & _ & Hsorted & _).
    exists res. split; [exact Eres|].
    apply sorted_by_negated_scale, Hsorted.
Qed.

Lemma block_lists_descending_witness :
  scales_descending
    (jordan_blocks_odd euler_legendre search_nonresidue
       [(0, [[1; 0]; [0; 2]]); (2, [[5]])] 3) /\
  (exists res,
      jordan_blocks_2 [(0, [[1; 0]; [0; 3]]); (2, [[0; 1]; [1; 0]])]
      = Some res /\ scales_descending res).
Proof.
  split.
  - apply (block_lists_descending euler_legendre search_nonresidue
             [(0, [[1; 0]; [0; 2]]); (2, [[5]])] 3).
    cbn. repeat constructor; lia.
  - apply (block_lists_descending euler_legendre search_nonresidue
             [(0, [[1; 0]; [0; 3]]); (2, [[0; 1]; [1; 0]])] 3).
Defined.

(** ** The lifter *)

Lemma to_ZZ_integer (q : Q) (z : Z) : (q == inject_Z z)%Q -> to_ZZ q = Ok z.
Proof.
  intros H. unfold to_ZZ. rewrite (Qred_complete _ _ H).
  rewrite (Qred_identity (inject_Z z)) by apply Z.gcd_1_r.
  reflexivity.
Qed.

Lemma pow_nonneg (p idx : Z) :
  0 <= idx ->
  exists c, pow p idx = Ok c /\ (c == inject_Z (p ^ idx))%Q.
Proof.
  intros H. unfold pow.
  replace (idx <? 0) with false by (symmetry; apply Z.ltb_ge; exact H).
  rewrite andb_false_r. eexists. split; [reflexivity|].
  symmetry. apply Zpower_Qpower. exact H.
Qed.

Lemma scaled_entry (e c : Q) (t k : Z) :
  (e * inject_Z 2 == inject_Z t)%Q -> (c == inject_Z k)%Q ->
  to_ZZ (e * inject_Z 2 * c) = Ok (t * k).
Proof.
  intros He Hc. apply to_ZZ_integer.
  rewrite He, Hc, <- inject_Z_mult. reflexivity.
Qed.

(** The constructor accepts the scaled matrix of every block when the
    scaling factor is an integer. *)
Lemma QuadraticForm_ZZ_scaled (b : qf) (c : Q) (k : Z) :
  (c == inject_Z k)%Q ->
  exists f, QuadraticForm_ZZ (scaled (mat_of b) c) = Ok f.
Proof.
  intros Hc. unfold QuadraticForm_ZZ.
  destruct b as [n| |]; cbn [mat_of h y scaled map comprehension bind].
  - rewrite (scaled_entry (inject_Z n) c (n * 2) k)
      by (rewrite <- ?inject_Z_mult; easy).
    cbn [bind]. unfold is_symmetric, diagonal. cbn.
    rewrite Z.eqb_refl, Z.even_mul, Z.even_mul. cbn.
    rewrite orb_true_r. cbn. eauto.
  - rewrite (scaled_entry 0 c 0 k), (scaled_entry (1 # 2) c 1 k) by easy.
    cbn [bind]. unfold is_symmetric, diagonal. cbn.
    rewrite !Z.eqb_refl. cbn. eauto.
  - rewrite (scaled_entry 1 c 2 k), (scaled_entry (1 # 2) c 1 k) by easy.
    cbn [bind]. unfold is_symmetric, diagonal. cbn -[Z.mul].
    rewrite !Z.eqb_refl, Z.even_mul. cbn. eauto.
Qed.

Lemma comprehension_ok {A B : Type} (f : A -> result B) (l : list A) :
  Forall (fun a => exists b, f a = Ok b) l ->
  exists bs, comprehension f l = Ok bs /\ length bs = length l.
Proof.
  induction 1 as [|a l (b & Hb) _ (bs & Hbs & Hlen)]; cbn.
  - exists []. auto.
  - rewrite Hb, Hbs. cbn. exists (b :: bs). cbn. auto.
Qed.

(** The lifter returns a form on every non-empty list of blocks of
    non-negative scale, whatever the integer [p]. *)
Lemma blocks_to_quad_form_ok (blcs : list blc) (p : Z) :
  blcs <> [] -> Forall (fun x => 0 <= fst x) blcs ->
  exists f, _blocks_to_quad_form blcs p = Ok f.
Proof.
  intros Hne Hscales. unfold _blocks_to_quad_form.
  destruct (comprehension_ok
              (fun '(idx, m) =>
                 c <- pow p idx ;; QuadraticForm_ZZ (scaled m c))
              (map (fun '(idx, b) => (idx, mat_of b)) blcs))
    as (qfs & -> & Hlen).
  - apply Forall_map. apply Forall_forall. intros [idx b] Hin.
    rewrite Forall_forall in Hscales. specialize (Hscales _ Hin). cbn in *.
    destruct (pow_nonneg p idx Hscales) as (c & -> & Hc). cbn [bind].
    apply (QuadraticForm_ZZ_scaled b c _ Hc).
  - rewrite length_map in Hlen. cbn [bind].
    destruct qfs as [|q qfs]; [destruct blcs; [congruence|discriminate]|].
    cbn. eauto.
Qed.

(** C10: on the empty block list the lifter raises (the [reduce] has no
    initial value) whatever [p] is; it returns a form only on a non-empty
    block list. *)
Theorem blocks_to_quad_form_empty (blcs : list blc) (p : Z) (f : form) :
  _blocks_to_quad_form [] p = Raise TypeError /\
  (_blocks_to_quad_form blcs p = Ok f -> blcs <> []).
Proof.
  split; [reflexivity|].
  intros H ->. discriminate H.
Qed.

Lemma blocks_to_quad_form_empty_witness :
  _blocks_to_quad_form [] 2 = Raise TypeError /\
  [(1, Res 3); (0, hyp2_name)] <> [].
Proof.
  destruct (blocks_to_quad_form_empty [(1, Res 3); (0, hyp2_name)] 2
              [[12; 0; 0]; [0; 0; 1]; [0; 1; 0]]) as [Hempty Hne].
  split; [exact Hempty|]. apply Hne. reflexivity.
Defined.

Lemma four_not_prime : ~ valid_prime 4.
Proof. intros [_ H]. apply (H 2); [lia|]. exists 2. reflexivity. Qed.

(** C9, as stated, fails: called with [p = 4], which is not a prime, the
    lifter signals nothing and returns the form of [[2]]. *)
Lemma invalid_prime_not_rejected :
  ~ (forall (blcs : list blc) (p : Z),
        ~ valid_prime p -> exists e, _blocks_to_quad_form blcs p = Raise e).
Proof.
  intros H. destruct (H [(0, Res 1)] 4 four_not_prime) as (e & He).
  discriminate He.
Qed.

(** C9, amended: the source validates neither the prime nor the form.  The
    lifter returns a form for every integer [p], prime or not, on every
    non-empty list of blocks of non-negative scale, and the 2-adic splitter,
    which takes no prime, returns a block list on every list of scale
    classes. *)
Theorem no_input_validation
        (blcs : list blc) (p : Z) (jb : scale_classes) :
  blcs <> [] -> Forall (fun x => 0 <= fst x) blcs ->
  (exists f, _blocks_to_quad_form blcs p = Ok f) /\
  (exists res, jordan_blocks_2 jb = Some res).
Proof.
  intros Hne Hscales. split.
  - apply blocks_to_quad_form_ok; assumption.
  - destruct (jordan_blocks_2_spec jb) as (_ & _ & res & _ & Eres & _).
    exists res. exact Eres.
Qed.

Lemma no_input_validation_witness :
  (exists f, _blocks_to_quad_form [(2, Res 5); (1, y2_name)] 9 = Ok f) /\
  (exists res, jordan_blocks_2 [(0, [[1; 0]; [0; 3]])] = Some res).
Proof.
  apply (no_input_validation [(2, Res 5); (1, y2_name)] 9
           [(0, [[1; 0]; [0; 3]])]).
  - discriminate.
  - repeat constructor; cbn; lia.
Defined.

(* ================================================================== *)
(** * Further properties of the code *)

(** ** More on the oracle *)

Lemma existsb_pointwise {B : Type} (f g : B -> bool) (l : list B) :
  (forall x, f x = g x) -> existsb f l = existsb g l.
Proof.
  intros H. induction l as [|x l IH]; cbn; [reflexivity|].
  rewrite H, IH. reflexivity.
Qed.

Lemma linear_form_mod8 (a b c x y0 z : Z) :
  ((a mod 8) * x + (b mod 8) * y0 + (c mod 8) * z) mod 8
  = (a * x + b * y0 + c * z) mod 8.
Proof.
  rewrite (Z.div_mod a 8) at 2 by lia.
  rewrite (Z.div_mod b 8) at 2 by lia.
  rewrite (Z.div_mod c 8) at 2 by lia.
  replace ((8 * (a / 8) + a mod 8) * x + (8 * (b / 8) + b mod 8) * y0
           + (8 * (c / 8) + c mod 8) * z)
    with ((a mod 8) * x + (b mod 8) * y0 + (c mod 8) * z
          + (a / 8 * x + b / 8 * y0 + c / 8 * z) * 8) by ring.
  rewrite Z_mod_plus_full. reflexivity.
Qed.

(** The answer of the oracle as a statement, for the proofs below. *)
Lemma rep_zero_exists (a b c : Z) :
  does_2adically_rep_zero a b c = true <->
  exists x y0 z,
    In x sq_residues /\ In y0 sq_residues /\ In z sq_residues /\
    rep_zero_at a b c x y0 z = true.
Proof.
  unfold does_2adically_rep_zero. rewrite existsb_exists. split.
  - intros (x & Hx & H).
    apply existsb_exists in H as (y0 & Hy & H).
    apply existsb_exists in H as (z & Hz & H). eauto 8.
  - intros (x & y0 & z & Hx & Hy & Hz & H).
    exists x. split; [exact Hx|].
    apply existsb_exists. exists y0. split; [exact Hy|].
    apply existsb_exists. exists z. auto.
Qed.

Lemma rep_zero_at_mod8 (a b c x y0 z : Z) :
  rep_zero_at (a mod 8) (b mod 8) (c mod 8) x y0 z = rep_zero_at a b c x y0 z.
Proof. unfold rep_zero_at. rewrite linear_form_mod8. reflexivity. Qed.

Lemma oracle_on_residues (a b c : Z) :
  does_2adically_rep_zero (a mod 8) (b mod 8) (c mod 8)
  = does_2adically_rep_zero a b c.
Proof.
  unfold does_2adically_rep_zero.
  repeat (apply existsb_pointwise; intro). apply rep_zero_at_mod8.
Qed.

(** X2: the oracle depends on its arguments only through their residues
    modulo 8. *)
Theorem does_2adically_rep_zero_mod8 (a b c a' b' c' : Z) :
  a mod 8 = a' mod 8 -> b mod 8 = b' mod 8 -> c mod 8 = c' mod 8 ->
  does_2adically_rep_zero a b c = does_2adically_rep_zero a' b' c'.
Proof.
  intros Ha Hb Hc.
  rewrite <- (oracle_on_residues a b c), <- (oracle_on_residues a' b' c').
  rewrite Ha, Hb, Hc. reflexivity.
Qed.

Lemma does_2adically_rep_zero_mod8_witness :
  does_2adically_rep_zero 1 3 5 = does_2adically_rep_zero 9 (-5) 21.
Proof.
  apply (does_2adically_rep_zero_mod8 1 3 5 9 (-5) 21); reflexivity.
Defined.

Lemma rep_zero_swap12 (a b c : Z) :
  does_2adically_rep_zero a b c = true -> does_2adically_rep_zero b a c = true.
Proof.
  rewrite !rep_zero_exists.
  intros (x & y0 & z & Hx & Hy & Hz & H). exists y0, x, z.
  repeat split; auto. apply rep_zero_at_spec in H. apply rep_zero_at_spec.
  replace (b * y0 + a * x + c * z) with (a * x + b * y0 + c * z) by ring.
  tauto.
Qed.

Lemma rep_zero_swap23 (a b c : Z) :
  does_2adically_rep_zero a b c = true -> does_2adically_rep_zero a c b = true.
Proof.
  rewrite !rep_zero_exists.
  intros (x & y0 & z & Hx & Hy & Hz & H). exists x, z, y0.
  repeat split; auto. apply rep_zero_at_spec in H. apply rep_zero_at_spec.
  replace (a * x + c * z + b * y0) with (a * x + b * y0 + c * z) by ring.
  tauto.
Qed.

Lemma bool_eq_of_imp (b1 b2 : bool) :
  (b1 = true -> b2 = true) -> (b2 = true -> b1 = true) -> b1 = b2.
Proof. destruct b1, b2; intuition congruence. Qed.

(** X3: the answer of the oracle does not depend on the order of its
    arguments. *)
Theorem does_2adically_rep_zero_symmetric (a b c : Z) :
  does_2adically_rep_zero b a c = does_2adically_rep_zero a b c /\
  does_2adically_rep_zero a c b = does_2adically_rep_zero a b c /\
  does_2adically_rep_zero c b a = does_2adically_rep_zero a b c.
Proof.
  repeat split; apply bool_eq_of_imp; intros H.
  - apply rep_zero_swap12, H.
  - apply rep_zero_swap12, H.
  - apply rep_zero_swap23, H.
  - apply rep_zero_swap23, H.
  - apply rep_zero_swap12, rep_zero_swap23, rep_zero_swap12, H.
  - apply rep_zero_swap12, rep_zero_swap23, rep_zero_swap12, H.
Qed.

Lemma odd_mod8 (m : Z) : Z.odd m = true -> In (m mod 8) unit_residues.
Proof.
  intros Hodd.
  assert (Hr : Z.odd (m mod 8) = true).
  { rewrite <- Hodd. rewrite (Z.div_mod m 8) at 2 by lia.
    replace (8 * (m / 8) + m mod 8) with (m mod 8 + 2 * (4 * (m / 8)))
      by ring.
    rewrite Z.odd_add_mul_2. reflexivity. }
  pose proof (Z.mod_pos_bound m 8 ltac:(lia)) as Hb.
  unfold unit_residues. cbn [In].
  assert (Hcases : m mod 8 = 0 \/ m mod 8 = 1 \/ m mod 8 = 2 \/ m mod 8 = 3 \/
                   m mod 8 = 4 \/ m mod 8 = 5 \/ m mod 8 = 6 \/ m mod 8 = 7)
    by lia.
  destruct Hcases as [E|[E|[E|[E|[E|[E|[E|E]]]]]]]; rewrite E in *;
    try discriminate Hr; auto.
Qed.

Lemma mod4_of_mod8 (m : Z) : (m mod 8) mod 4 = m mod 4.
Proof.
  rewrite (Z.div_mod m 8) at 2 by lia.
  replace (8 * (m / 8) + m mod 8) with (m mod 8 + (2 * (m / 8)) * 4) by ring.
  rewrite Z_mod_plus_full. reflexivity.
Qed.

(** X1: on odd [a], [b], [c] the oracle answers [false] exactly when the
    three are congruent modulo 4. *)
Theorem does_2adically_rep_zero_odd (a b c : Z) :
  Z.odd a = true -> Z.odd b = true -> Z.odd c = true ->
  does_2adically_rep_zero a b c
  = negb ((a mod 4 =? b mod 4) && (b mod 4 =? c mod 4)).
Proof.
  intros Ha Hb Hc.
  rewrite <- oracle_on_residues.
  rewrite <- (mod4_of_mod8 a), <- (mod4_of_mod8 b), <- (mod4_of_mod8 c).
  apply odd_mod8 in Ha, Hb, Hc. unfold unit_residues in *. cbn [In] in *.
  destruct Ha as [<-|[<-|[<-|[<-|[]]]]], Hb as [<-|[<-|[<-|[<-|[]]]]],
           Hc as [<-|[<-|[<-|[<-|[]]]]]; reflexivity.
Qed.

Lemma does_2adically_rep_zero_odd_witness :
  does_2adically_rep_zero 9 (-3) 5 = false.
Proof.
  apply (does_2adically_rep_zero_odd 9 (-3) 5); reflexivity.
Defined.

(** ** More on the reducer *)

Lemma trans_jordan_dec_2_keeps_residue (n : nat) :
  forall (us : list Z) (l : list qf),
    (3 <= length us)%nat -> trans_jordan_dec_2_fuel n us = Some l ->
    (1 <= length (diag_part l))%nat.
Proof.
  induction n as [|n IH]; intros us l Hlen H; [discriminate|].
  destruct us as [|u1 [|u2 [|u3 rest]]]; cbn [length] in Hlen; try lia.
  rewrite trans_jordan_dec_2_fuel_step in H.
  destruct (trans_jordan_dec_2_fuel n rest) as [l0|]; [|discriminate].
  unfold renormalise in H.
  pose proof (extension_diag u1 u2 u3) as Hed.
  destruct (Nat.leb_spec (length (diag_part (l0 ++ extension u1 u2 u3))) 2)
    as [_|Hgt].
  - injection H as <-. rewrite diag_part_app, length_app. lia.
  - destruct (trans_jordan_dec_2_fuel n (diag_part (l0 ++ extension u1 u2 u3)))
      as [l1|] eqn:E1; [|discriminate].
    injection H as <-. rewrite diag_part_app, length_app.
    pose proof (IH _ _ Hgt E1). lia.
Qed.

(** X4: on three or more elements the reducer leaves one residue when their
    number [n] is odd and two when it is even, with [(n - 1) / 2]
    markers. *)
Theorem trans_jordan_dec_2_counts (us : list Z) :
  (3 <= length us)%nat ->
  exists l,
    _trans_jordan_dec_2 us = Some l /\
    length (diag_part l) = (if Nat.even (length us) then 2 else 1)%nat /\
    length (non_diag_part l) = ((length us - 1) / 2)%nat.
Proof.
  intros Hlen.
  destruct (trans_jordan_dec_2_total us) as (l & E & Hle & Hrk).
  pose proof (trans_jordan_dec_2_keeps_residue _ _ _ Hlen E) as Hge.
  exists l. split; [exact E|]. unfold reducer_rank in Hrk.
  destruct (Nat.even (length us)) eqn:Hev.
  - apply Nat.even_spec in Hev as [k Hk].
    assert (length (diag_part l) = 2%nat) as -> by lia.
    split; [reflexivity|]. rewrite Hk in *.
    replace (2 * k - 1)%nat with (1 + (k - 1) * 2)%nat by lia.
    rewrite Nat.div_add by lia. cbn. lia.
  - assert (Hodd : Nat.odd (length us) = true)
      by (rewrite <- Nat.negb_even, Hev; reflexivity).
    apply Nat.odd_spec in Hodd as [k Hk].
    assert (length (diag_part l) = 1%nat) as -> by lia.
    split; [reflexivity|]. rewrite Hk in *.
    replace (2 * k + 1 - 1)%nat with (0 + k * 2)%nat by lia.
    rewrite Nat.div_add by lia. cbn. lia.
Qed.

Lemma trans_jordan_dec_2_counts_witness :
  exists l,
    _trans_jordan_dec_2 [1; 3; 5; 7; 1] = Some l /\
    length (diag_part l) = 1%nat /\ length (non_diag_part l) = 2%nat.
Proof.
  apply (trans_jordan_dec_2_counts [1; 3; 5; 7; 1]). cbn. lia.
Defined.

Lemma extension_residues (u1 u2 u3 : Z) :
  In u1 unit_residues -> In u2 unit_residues -> In u3 unit_residues ->
  residues_ok (extension u1 u2 u3).
Proof.
  unfold unit_residues, residues_ok. cbn [In].
  intros [<-|[<-|[<-|[<-|[]]]]] [<-|[<-|[<-|[<-|[]]]]]
         [<-|[<-|[<-|[<-|[]]]]];
    vm_compute; (constructor; [|constructor]); intuition congruence.
Qed.

Lemma residues_ok_app (l1 l2 : list qf) :
  residues_ok (l1 ++ l2) <-> residues_ok l1 /\ residues_ok l2.
Proof. unfold residues_ok. rewrite diag_part_app. apply Forall_app. Qed.

Lemma residues_ok_non_diag (l : list qf) : residues_ok (non_diag_part l).
Proof. unfold residues_ok. rewrite diag_part_non_diag_part. constructor. Qed.

Lemma trans_jordan_dec_2_fuel_short (n : nat) (us : list Z) :
  (length us <= 2)%nat -> trans_jordan_dec_2_fuel (S n) us = Some (map Res us).
Proof.
  destruct us as [|u1 [|u2 [|u3 rest]]]; cbn [length]; intros H;
    [reflexivity..|lia].
Qed.

Lemma trans_jordan_dec_2_fuel_residues (n : nat) :
  forall (us : list Z) (l : list qf),
    Forall (fun r => In r unit_residues) us ->
    trans_jordan_dec_2_fuel n us = Some l -> residues_ok l.
Proof.
  induction n as [|n IH]; intros us l Hus H; [discriminate|].
  destruct (le_lt_dec (length us) 2) as [Hshort|Hlong].
  { rewrite trans_jordan_dec_2_fuel_short in H by exact Hshort.
    injection H as <-. unfold residues_ok.
    rewrite diag_part_map_Res. exact Hus. }
  destruct us as [|u1 [|u2 [|u3 rest]]]; cbn [length] in Hlong; try lia.
  rewrite trans_jordan_dec_2_fuel_step in H.
  destruct (trans_jordan_dec_2_fuel n rest) as [l0|] eqn:E0; [|discriminate].
  inversion Hus as [|? ? H1 Hus1]; subst.
  inversion Hus1 as [|? ? H2 Hus2]; subst.
  inversion Hus2 as [|? ? H3 Hrest]; subst.
  assert (Hl : residues_ok (l0 ++ extension u1 u2 u3)).
  { apply residues_ok_app. split; [apply (IH _ _ Hrest E0)|].
    apply extension_residues; assumption. }
  unfold renormalise in H.
  destruct (length (diag_part (l0 ++ extension u1 u2 u3)) <=? 2)%nat.
  - injection H as <-. exact Hl.
  - destruct (trans_jordan_dec_2_fuel n (diag_part (l0 ++ extension u1 u2 u3)))
      as [l1|] eqn:E1; [|discriminate].
    injection H as <-. apply residues_ok_app.
    split; [apply (IH _ _ Hl E1) | apply residues_ok_non_diag].
Qed.

(** X5: residues in {1, 3, 5, 7} are reduced to residues in
    {1, 3, 5, 7}. *)
Theorem trans_jordan_dec_2_residues (us : list Z) :
  Forall (fun r => In r unit_residues) us ->
  exists l, _trans_jordan_dec_2 us = Some l /\
            Forall (fun r => In r unit_residues) (diag_part l).
Proof.
  intros Hus. destruct (trans_jordan_dec_2_total us) as (l & E & _).
  exists l. split; [exact E|].
  apply (trans_jordan_dec_2_fuel_residues _ _ _ Hus E).
Qed.

Lemma trans_jordan_dec_2_residues_witness :
  exists l, _trans_jordan_dec_2 [7; 7; 5; 3] = Some l /\
            Forall (fun r => In r unit_residues) (diag_part l).
Proof.
  apply (trans_jordan_dec_2_residues [7; 7; 5; 3]).
  repeat constructor; cbn; tauto.
Defined.

Lemma cong8_mul (a a' b b' : Z) :
  a mod 8 = a' mod 8 -> b mod 8 = b' mod 8 -> (a * b) mod 8 = (a' * b') mod 8.
Proof.
  intros Ha Hb. rewrite (Z.mul_mod a b), (Z.mul_mod a' b') by lia.
  rewrite Ha, Hb. reflexivity.
Qed.

Lemma list_prod_app (l1 l2 : list Z) :
  list_prod (l1 ++ l2) = list_prod l1 * list_prod l2.
Proof.
  unfold list_prod. induction l1 as [|x l1 IH]; cbn [app fold_right].
  - destruct (fold_right Z.mul 1 l2); reflexivity.
  - rewrite IH. ring.
Qed.

Lemma det_prod_app (l1 l2 : list qf) :
  det_prod (l1 ++ l2) = det_prod l1 * det_prod l2.
Proof. unfold det_prod. rewrite map_app. apply list_prod_app. Qed.

Lemma det_prod_map_Res (us : list Z) : det_prod (map Res us) = list_prod us.
Proof.
  unfold det_prod. rewrite map_map. cbn [det_unit]. rewrite map_id.
  reflexivity.
Qed.

Lemma det_prod_split (l : list qf) :
  det_prod l = list_prod (diag_part l) * det_prod (non_diag_part l).
Proof.
  unfold det_prod, list_prod, non_diag_part.
  induction l as [|[n| |] l IH]; cbn [diag_part filter is_str map fold_right
                                      det_unit];
    rewrite ?IH; ring.
Qed.

Lemma det_prod_extension (u1 u2 u3 : Z) :
  det_prod (extension u1 u2 u3) mod 8 = (u1 * u2 * u3) mod 8.
Proof.
  unfold extension, det_prod, list_prod.
  destruct (does_2adically_rep_zero u1 u2 u3); cbn [map fold_right det_unit].
  - rewrite Z.mul_mod_idemp_l by lia. f_equal. ring.
  - rewrite Z.mul_mod_idemp_l by lia.
    replace (3 * (u1 * u2 * u3) * (3 * 1))
      with (u1 * u2 * u3 + (u1 * u2 * u3) * 8) by ring.
    apply Z_mod_plus_full.
Qed.

Lemma trans_jordan_dec_2_fuel_det (n : nat) :
  forall (us : list Z) (l : list qf),
    trans_jordan_dec_2_fuel n us = Some l ->
    det_prod l mod 8 = list_prod us mod 8.
Proof.
  induction n as [|n IH]; intros us l H; [discriminate|].
  destruct (le_lt_dec (length us) 2) as [Hshort|Hlong].
  { rewrite trans_jordan_dec_2_fuel_short in H by exact Hshort.
    injection H as <-. rewrite det_prod_map_Res. reflexivity. }
  destruct us as [|u1 [|u2 [|u3 rest]]]; cbn [length] in Hlong; try lia.
  rewrite trans_jordan_dec_2_fuel_step in H.
  destruct (trans_jordan_dec_2_fuel n rest) as [l0|] eqn:E0; [|discriminate].
  assert (Hl : det_prod (l0 ++ extension u1 u2 u3) mod 8
               = list_prod (u1 :: u2 :: u3 :: rest) mod 8).
  { rewrite det_prod_app.
    replace (list_prod (u1 :: u2 :: u3 :: rest))
      with (list_prod rest * (u1 * u2 * u3))
      by (unfold list_prod; cbn [fold_right]; ring).
    apply cong8_mul; [apply (IH _ _ E0) | apply det_prod_extension]. }
  unfold renormalise in H.
  destruct (length (diag_part (l0 ++ extension u1 u2 u3)) <=? 2)%nat.
  - injection H as <-. exact Hl.
  - destruct (trans_jordan_dec_2_fuel n (diag_part (l0 ++ extension u1 u2 u3)))
      as [l1|] eqn:E1; [|discriminate].
    injection H as <-. rewrite <- Hl.
    rewrite det_prod_app, (det_prod_split (l0 ++ extension u1 u2 u3)).
    apply cong8_mul; [apply (IH _ _ E1) | reflexivity].
Qed.

Lemma det_unit_spec (b : qf) :
  (qdet (mat_of b) * (if is_str b then 4 else 1) == inject_Z (det_unit b))%Q.
Proof.
  destruct b as [n| |]; cbn [mat_of qdet is_str det_unit h y].
  - ring.
  - reflexivity.
  - reflexivity.
Qed.

(** X6: the reducer keeps the determinant modulo 8 up to squares: with
    [det_unit] of ["h"] and ["y"] being four times the determinants [-1/4]
    and [3/4] of their matrices [h] and [y], the product of [det_unit] over
    the result is congruent modulo 8 to the product of the input. *)
Theorem trans_jordan_dec_2_det (us : list Z) :
  (qdet h * 4 == inject_Z (det_unit hyp2_name))%Q /\
  (qdet y * 4 == inject_Z (det_unit y2_name))%Q /\
  exists l, _trans_jordan_dec_2 us = Some l /\
            det_prod l mod 8 = list_prod us mod 8.
Proof.
  split; [exact (det_unit_spec hyp2_name)|].
  split; [exact (det_unit_spec y2_name)|].
  destruct (trans_jordan_dec_2_total us) as (l & E & _).
  exists l. split; [exact E|]. apply (trans_jordan_dec_2_fuel_det _ _ _ E).
Qed.

(** ** More on the 2-adic splitter *)

Section GroupingFacts.
Context {A : Type} (key : A -> Z).

Lemma groupby_concat (l : list A) : concat (map snd (groupby key l)) = l.
Proof.
  induction l as [|x l IH]; [reflexivity|]. cbn [groupby].
  destruct (groupby key l) as [|[k g] gs]; cbn in *.
  - rewrite <- IH. reflexivity.
  - destruct (key x =? k); cbn; rewrite <- IH; reflexivity.
Qed.

Lemma groupby_group_key (l : list A) :
  forall k g x, In (k, g) (groupby key l) -> In x g -> key x = k.
Proof.
  induction l as [|x0 l IH]; intros k g x Hin Hx; [destruct Hin|].
  cbn [groupby] in Hin.
  destruct (groupby key l) as [|[k' g'] gs].
  - destruct Hin as [E|[]]. injection E as <- <-.
    destruct Hx as [<-|[]]. reflexivity.
  - destruct (Z.eqb_spec (key x0) k') as [Hk|Hk].
    + destruct Hin as [E|Hin].
      * injection E as <- <-. destruct Hx as [<-|Hx]; [exact Hk|].
        apply (IH k' g'); cbn; auto.
      * apply (IH k g); cbn; auto.
    + destruct Hin as [E|Hin].
      * injection E as <- <-. destruct Hx as [<-|[]]. reflexivity.
      * apply (IH k g); auto.
Qed.

Lemma list_group_by_in (l : list A) (k : Z) (g : list A) (x : A) :
  In (k, g) (list_group_by l key) -> In x g -> In x l /\ key x = k.
Proof.
  unfold list_group_by. intros Hin Hx. split.
  - apply (Permutation_in x (sorted_perm key l)).
    rewrite <- (groupby_concat (sorted key l)).
    apply in_concat. exists g. split; [|exact Hx].
    apply (in_map snd) in Hin. exact Hin.
  - apply (groupby_group_key _ _ _ _ Hin Hx).
Qed.
End GroupingFacts.

Lemma diag_elts_in (ls : list blc) (a r : Z) :
  In (a, r) (diag_elts ls) <-> In (a, Res r) ls.
Proof.
  induction ls as [|[a' [r'| |]] ls IH]; cbn; [tauto| | |].
  - rewrite IH. split; intros [E|H]; auto; left; congruence.
  - rewrite IH. split; [auto|]. intros [E|H]; [discriminate|exact H].
  - rewrite IH. split; [auto|]. intros [E|H]; [discriminate|exact H].
Qed.

Lemma in_diag_part (l : list qf) (r : Z) : In (Res r) l <-> In r (diag_part l).
Proof.
  induction l as [|[r'| |] l IH]; cbn; [tauto| | |].
  - rewrite IH. split; intros [E|H]; auto; left; congruence.
  - rewrite <- IH. split; [|auto]. intros [E|H]; [discriminate|exact H].
  - rewrite <- IH. split; [|auto]. intros [E|H]; [discriminate|exact H].
Qed.

(** Where a tuple of the loop over a Gram matrix comes from. *)
Lemma while_not_zero_in (fuel : nat) :
  forall (a : Z) (m : matrix) (l : list blc) (s : Z) (b : qf),
    while_not_zero fuel a m = Some l -> In (s, b) l ->
    (exists m00, Z.odd m00 = true /\ b = Res (m00 mod 8) /\ s = a) \/
    (is_str b = true /\ s = a + 1).
Proof.
  induction fuel as [|fuel IH]; intros a m l s b H Hin.
  - cbn in H. destruct (is_zero m); [|discriminate].
    injection H as <-. destruct Hin.
  - destruct (is_zero m) eqn:Hz.
    { cbn in H. rewrite Hz in H. injection H as <-. destruct Hin. }
    rewrite (while_not_zero_step fuel a m Hz) in H.
    destruct (Z.odd (entry m 0 0)) eqn:Hodd; [|destruct (entry m 0 0 =? 0)];
      match type of H with
      | option_map _ (while_not_zero fuel a ?m') = _ =>
        destruct (while_not_zero fuel a m') as [l'|] eqn:E; [|discriminate]
      end;
      cbn in H; injection H as <-;
      (destruct Hin as [Hin|Hin]; [|exact (IH _ _ _ _ _ E Hin)]);
      injection Hin as <- <-; eauto.
Qed.

Lemma first_pass_in (jb : scale_classes) :
  forall (ls : list blc) (s : Z) (b : qf),
    first_pass jb = Some ls -> In (s, b) ls ->
    exists c, In c jb /\
      ((exists m00, Z.odd m00 = true /\ b = Res (m00 mod 8) /\ s = fst c) \/
       (is_str b = true /\ s = fst c + 1)).
Proof.
  induction jb as [|[a m] jb IH]; intros ls s b H Hin; cbn [first_pass] in H.
  - injection H as <-. destruct Hin.
  - destruct (class_blocks a m) as [l1|] eqn:E1; [|discriminate].
    destruct (first_pass jb) as [l2|] eqn:E2; [|discriminate].
    injection H as <-. apply in_app_or in Hin as [Hin|Hin].
    + exists (a, m). split; [left; reflexivity|].
      apply (while_not_zero_in _ _ _ _ _ _ E1 Hin).
    + destruct (IH _ _ _ eq_refl Hin) as (c & Hc & Hcase).
      exists c. split; [right; exact Hc | exact Hcase].
Qed.

Lemma regroup_in (gs : list (Z * list (Z * Z))) :
  forall (r : list blc) (s : Z) (b : qf),
    regroup gs = Some r -> In (s, b) r ->
    exists k g l,
      In (k, g) gs /\ _trans_jordan_dec_2 (map snd g) = Some l /\
      In b l /\ s = (if is_str b then k + 1 else k).
Proof.
  induction gs as [|[k g] gs IH]; intros r s b H Hin; cbn [regroup] in H.
  - injection H as <-. destruct Hin.
  - destruct (_trans_jordan_dec_2 (map snd g)) as [l|] eqn:El; [|discriminate].
    destruct (regroup gs) as [r'|] eqn:Er; [|discriminate].
    injection H as <-. apply in_app_or in Hin as [Hin|Hin].
    + apply in_map_iff in Hin as (b' & Hb' & Hin). exists k, g, l.
      unfold retag in Hb'.
      destruct (is_str b') eqn:Hs; injection Hb' as <- <-; rewrite Hs;
        cbn; auto.
    + destruct (IH _ _ _ eq_refl Hin) as (k' & g' & l' & Hg & Hl & Hb & Hs).
      exists k', g', l'. cbn. auto.
Qed.

(** The 2-adic splitter in terms of its two loops. *)
Lemma jordan_blocks_2_unfold (jb : scale_classes) :
  exists ls r,
    first_pass jb = Some ls /\
    regroup (list_group_by (diag_elts ls) fst) = Some r /\
    jordan_blocks_2 jb = Some (sorted (fun x => - fst x) (str_elts ls ++ r)).
Proof.
  destruct (first_pass_total jb) as (ls & Els).
  destruct (regroup_spec (list_group_by (diag_elts ls) fst)) as (r & Er & _).
  exists ls, r. unfold jordan_blocks_2. rewrite Els, Er. auto.
Qed.

(** Every block of the result is a string of the first loop or comes out
    of the reducer run on a group of units of the first loop. *)
Lemma jordan_blocks_2_in (jb : scale_classes) (res : list blc) (s : Z)
      (b : qf) :
  jordan_blocks_2 jb = Some res -> In (s, b) res ->
  exists ls,
    first_pass jb = Some ls /\
    ((is_str b = true /\ In (s, b) ls) \/
     exists k g l,
       (forall x, In x g -> In (fst x, Res (snd x)) ls /\ fst x = k) /\
       g <> [] /\
       _trans_jordan_dec_2 (map snd g) = Some l /\
       In b l /\ s = (if is_str b then k + 1 else k)).
Proof.
  intros Hres Hin.
  destruct (jordan_blocks_2_unfold jb) as (ls & r & Els & Er & E).
  rewrite E in Hres. injection Hres as <-.
  exists ls. split; [exact Els|].
  apply (Permutation_in _ (sorted_perm _ _)) in Hin.
  apply in_app_or in Hin as [Hin|Hin].
  - left. apply filter_In in Hin as [Hin Hs]. auto.
  - right. destruct (regroup_in _ _ _ _ Er Hin) as (k & g & l & Hg & Hl & Hb).
    exists k, g, l. split; [|split; [|split; [exact Hl | exact Hb]]].
    + intros [a r0] Hx.
      destruct (list_group_by_in fst _ _ _ _ Hg Hx) as [Hd Hk].
      split; [apply diag_elts_in; exact Hd | exact Hk].
    + intros ->. unfold list_group_by in Hg.
      clear -Hg. induction (sorted fst (diag_elts ls)) as [|x l0 IH];
        [destruct Hg|].
      cbn [groupby] in Hg. destruct (groupby fst l0) as [|[k' g'] gs].
      * destruct Hg as [Hg|[]]. discriminate.
      * destruct (fst x =? k'); destruct Hg as [Hg|Hg];
          try discriminate; apply IH; cbn; auto.
Qed.

(** X7: whatever the scale classes, the integers in the result of the
    2-adic splitter are residues in {1, 3, 5, 7}. *)
Theorem jordan_blocks_2_residues (jb : scale_classes) (res : list blc)
        (s r : Z) :
  jordan_blocks_2 jb = Some res -> In (s, Res r) res -> In r unit_residues.
Proof.
  intros Hres Hin.
  destruct (jordan_blocks_2_in jb res s (Res r) Hres Hin)
    as (ls & Els & [[Hs _]|(k & g & l & Hg & _ & Hl & Hb & _)]);
    [discriminate|].
  assert (Hus : Forall (fun r0 => In r0 unit_residues) (map snd g)).
  { apply Forall_forall. intros r0 Hr0.
    apply in_map_iff in Hr0 as ([a r1] & <- & Hx).
    destruct (Hg _ Hx) as [Hls _]. cbn in *.
    destruct (first_pass_in jb ls _ _ Els Hls)
      as (c & _ & [(m00 & Hodd & E & _)|[Hstr _]]); [|discriminate].
    injection E as ->. apply odd_mod8, Hodd. }
  pose proof (trans_jordan_dec_2_fuel_residues _ _ _ Hus Hl) as Hok.
  unfold residues_ok in Hok. rewrite Forall_forall in Hok.
  apply Hok, in_diag_part, Hb.
Qed.

Lemma jordan_blocks_2_residues_witness :
  In 5 unit_residues.
Proof.
  apply (jordan_blocks_2_residues
           [(0, [[13; 0; 0]; [0; 0; 1]; [0; 1; 0]])]
           [(1, hyp2_name); (0, Res 5)] 0 5).
  - reflexivity.
  - cbn. auto.
Defined.

(** X8: a block of scale [s] in the result of the 2-adic splitter belongs
    to a scale class of scale [s] when it is an integer, and of scale
    [s - 1] when it is a string. *)
Theorem jordan_blocks_2_scales (jb : scale_classes) (res : list blc)
        (s : Z) (b : qf) :
  jordan_blocks_2 jb = Some res -> In (s, b) res ->
  exists c, In c jb /\ s = (if is_str b then fst c + 1 else fst c).
Proof.
  intros Hres Hin.
  destruct (jordan_blocks_2_in jb res s b Hres Hin)
    as (ls & Els & [[Hs Hls]|(k & g & l & Hg & Hne & _ & _ & Hk)]).
  - destruct (first_pass_in jb ls _ _ Els Hls)
      as (c & Hc & [(m00 & _ & E & _)|[_ E]]).
    + subst b. discriminate.
    + exists c. rewrite Hs. auto.
  - destruct g as [|x g]; [congruence|].
    destruct (Hg x (or_introl eq_refl)) as [Hls Hx].
    destruct (first_pass_in jb ls _ _ Els Hls)
      as (c & Hc & [(m00 & _ & _ & E)|[Hstr _]]); [|discriminate].
    exists c. split; [exact Hc|]. rewrite Hk, <- Hx, E. reflexivity.
Qed.

Lemma jordan_blocks_2_scales_witness :
  exists c, In c [(0, [[13; 0; 0]; [0; 0; 1]; [0; 1; 0]])] /\ 1 = fst c + 1.
Proof.
  apply (jordan_blocks_2_scales
           [(0, [[13; 0; 0]; [0; 0; 1]; [0; 1; 0]])]
           [(1, hyp2_name); (0, Res 5)] 1 hyp2_name).
  - reflexivity.
  - cbn. auto.
Defined.

Lemma filter_length_perm {B : Type} (f : B -> bool) (l1 l2 : list B) :
  Permutation l1 l2 -> length (filter f l1) = length (filter f l2).
Proof.
  induction 1 as [|x l1 l2 _ IH|x x' l|l1 l2 l3 _ IH1 _ IH2]; cbn.
  - reflexivity.
  - destruct (f x); cbn; rewrite IH; reflexivity.
  - destruct (f x), (f x'); reflexivity.
  - congruence.
Qed.

Lemma filter_length_concat {B : Type} (f : B -> bool) (g : list B)
      (gs : list (list B)) :
  In g gs -> (length (filter f g) <= length (filter f (concat gs)))%nat.
Proof.
  induction gs as [|g' gs IH]; intros Hin; [destruct Hin|].
  cbn [concat]. rewrite filter_app, length_app.
  destruct Hin as [->|Hin]; [lia|]. specialize (IH Hin). lia.
Qed.

Lemma filter_all {B : Type} (f : B -> bool) (l : list B) :
  (forall x, In x l -> f x = true) -> filter f l = l.
Proof.
  induction l as [|x l IH]; cbn; intros H; [reflexivity|].
  rewrite (H x (or_introl eq_refl)). f_equal. apply IH. auto.
Qed.

Lemma units_at_diag_elts (k : Z) (ls : list blc) :
  length (filter (fun x => fst x =? k) (diag_elts ls)) = units_at k ls.
Proof.
  unfold units_at.
  induction ls as [|[a [r| |]] ls IH]; cbn; auto.
  - rewrite andb_true_r. destruct (a =? k); cbn; rewrite IH; reflexivity.
  - rewrite andb_false_r. exact IH.
  - rewrite andb_false_r. exact IH.
Qed.

(** A group is no longer than the list has elements with its key. *)
Lemma list_group_by_length (l : list (Z * Z)) (k : Z) (g : list (Z * Z)) :
  In (k, g) (list_group_by l fst) ->
  (length g <= length (filter (fun x => (fst x =? k)%Z) l))%nat.
Proof.
  intros Hin.
  rewrite <- (filter_length_perm _ _ _ (sorted_perm fst l)).
  rewrite <- (groupby_concat fst (sorted fst l)).
  rewrite <- (filter_all (fun x => fst x =? k) g) at 1.
  - apply filter_length_concat. apply (in_map snd) in Hin. exact Hin.
  - intros x Hx. apply Z.eqb_eq.
    apply (groupby_group_key fst _ _ _ _ Hin Hx).
Qed.

(** Groups of at most two units pass the second loop unchanged. *)
Lemma regroup_short (gs : list (Z * list (Z * Z))) :
  Forall (fun kg => (length (snd kg) <= 2)%nat /\
                    forall x, In x (snd kg) -> fst x = fst kg) gs ->
  regroup gs
  = Some (map (fun x => (fst x, Res (snd x))) (concat (map snd gs))).
Proof.
  induction 1 as [|[k g] gs [Hlen Hkey] _ IH]; [reflexivity|].
  cbn [regroup map concat snd fst] in *. rewrite IH.
  unfold _trans_jordan_dec_2.
  rewrite trans_jordan_dec_2_fuel_short by (rewrite length_map; exact Hlen).
  rewrite map_app, !map_map. do 2 f_equal.
  apply map_ext_in. intros x Hx. unfold retag. cbn.
  rewrite (Hkey x Hx). reflexivity.
Qed.

Lemma str_and_diag_elts (ls : list blc) :
  Permutation (str_elts ls ++ map (fun x => (fst x, Res (snd x))) (diag_elts ls))
              ls.
Proof.
  unfold str_elts.
  induction ls as [|[a [r| |]] ls IH]; cbn; [constructor| | |].
  - symmetry. apply Permutation_cons_app. symmetry. exact IH.
  - constructor. exact IH.
  - constructor. exact IH.
Qed.

(** X9: when the first loop leaves at most two units at every scale, the
    2-adic splitter only reorders its tuples: the result is a permutation
    of the list [ls] of the first loop. *)
Theorem jordan_blocks_2_no_reduction (jb : scale_classes) (ls : list blc) :
  first_pass jb = Some ls ->
  (forall a, (units_at a ls <= 2)%nat) ->
  exists res, jordan_blocks_2 jb = Some res /\ Permutation res ls.
Proof.
  intros Els Hunits. unfold jordan_blocks_2. rewrite Els.
  rewrite regroup_short.
  - eexists. split; [reflexivity|].
    rewrite sorted_perm. unfold list_group_by. rewrite groupby_concat.
    apply (Permutation_trans (l' := str_elts ls
             ++ map (fun x => (fst x, Res (snd x))) (diag_elts ls)));
      [|apply str_and_diag_elts].
    apply Permutation_app_head, Permutation_map, sorted_perm.
  - apply Forall_forall. intros [k g] Hin. cbn [fst snd]. split.
    + pose proof (list_group_by_length _ _ _ Hin) as Hlen.
      rewrite units_at_diag_elts in Hlen. specialize (Hunits k). lia.
    + intros x Hx. apply (list_group_by_in fst _ _ _ _ Hin Hx).
Qed.

Lemma jordan_blocks_2_no_reduction_witness :
  exists res,
    jordan_blocks_2 [(0, [[1; 0]; [0; 3]]); (1, [[5; 0; 0]; [0; 2; 1]; [0; 1; 2]])]
    = Some res /\
    Permutation res [(0, Res 1); (0, Res 3); (1, Res 5); (2, y2_name)].
Proof.
  apply (jordan_blocks_2_no_reduction
           [(0, [[1; 0]; [0; 3]]); (1, [[5; 0; 0]; [0; 2; 1]; [0; 1; 2]])]).
  - reflexivity.
  - intros a. unfold units_at. cbn -[Z.eqb].
    destruct (Z.eqb_spec 0 a), (Z.eqb_spec 1 a), (Z.eqb_spec 2 a); cbn; lia.
Defined.

(** ** More on the lifter *)

Lemma comprehension_Forall2 {A B : Type} (f : A -> result B) (l : list A) :
  forall bs, comprehension f l = Ok bs -> Forall2 (fun a b => f a = Ok b) l bs.
Proof.
  induction l as [|a l IH]; cbn; intros bs H.
  - injection H as <-. constructor.
  - destruct (f a) as [b|e] eqn:Ea; cbn in H; [|discriminate].
    destruct (comprehension f l) as [bs'|e]; cbn in H; [|discriminate].
    injection H as <-. constructor; [exact Ea | apply IH; reflexivity].
Qed.

Lemma comprehension_app {A B : Type} (f : A -> result B) (l1 l2 : list A)
      (bs1 bs2 : list B) :
  comprehension f l1 = Ok bs1 -> comprehension f l2 = Ok bs2 ->
  comprehension f (l1 ++ l2) = Ok (bs1 ++ bs2).
Proof.
  revert bs1. induction l1 as [|a l1 IH]; cbn; intros bs1 H1 H2.
  - injection H1 as <-. exact H2.
  - destruct (f a) as [b|e]; cbn in *; [|discriminate].
    destruct (comprehension f l1) as [bs'|e]; cbn in *; [|discriminate].
    injection H1 as <-. rewrite (IH bs' eq_refl H2). reflexivity.
Qed.

Lemma comprehension_raise {A B : Type} (f : A -> result B) (l : list A)
      (e : exn) :
  comprehension f l = Raise e -> exists a, In a l /\ f a = Raise e.
Proof.
  induction l as [|a l IH]; cbn; intros H; [discriminate|].
  destruct (f a) as [b|e'] eqn:Ea; cbn in H.
  - destruct (comprehension f l) as [bs|e']; cbn in H; [discriminate|].
    destruct (IH H) as (a' & Hin & Ha'). exists a'. auto.
  - injection H as ->. exists a. auto.
Qed.

(** The lifter on one block is the form built for that block. *)
Lemma blocks_to_quad_form_singleton (idx : Z) (b : qf) (p : Z) :
  _blocks_to_quad_form [(idx, b)] p
  = (c <- pow p idx ;; QuadraticForm_ZZ (scaled (mat_of b) c)).
Proof.
  unfold _blocks_to_quad_form. cbn [map comprehension].
  destruct (pow p idx) as [c|e]; cbn [bind]; [|reflexivity].
  destruct (QuadraticForm_ZZ (scaled (mat_of b) c)); reflexivity.
Qed.

Lemma blocks_to_quad_form_eq (blcs : list blc) (p : Z) :
  _blocks_to_quad_form blcs p
  = (qfs <- comprehension
              (fun '(idx, m) =>
                 c <- pow p idx ;; QuadraticForm_ZZ (scaled m c))
              (map (fun '(idx, b) => (idx, mat_of b)) blcs) ;;
     reduce form_add qfs).
Proof. reflexivity. Qed.

(** The lifter either builds a form for every block and adds them up, or
    raises what the first failing block raises. *)
Lemma blocks_to_quad_form_cases (blcs : list blc) (p : Z) :
  (exists qfs,
      Forall2 (fun x q => _blocks_to_quad_form [x] p = Ok q) blcs qfs /\
      _blocks_to_quad_form blcs p = reduce form_add qfs) \/
  (exists e x,
      In x blcs /\ _blocks_to_quad_form [x] p = Raise e /\
      _blocks_to_quad_form blcs p = Raise e).
Proof.
  rewrite (blocks_to_quad_form_eq blcs p).
  destruct (comprehension _ (map (fun '(idx, b) => (idx, mat_of b)) blcs))
    as [qfs|e] eqn:E; cbn [bind].
  - left. exists qfs. split; [|reflexivity].
    apply comprehension_Forall2 in E. clear -E.
    revert qfs E. induction blcs as [|[idx b] blcs IH]; intros qfs E;
      inversion E as [|? q ? qs Hq Hqs]; subst; constructor.
    + rewrite blocks_to_quad_form_singleton. exact Hq.
    + apply IH, Hqs.
  - right. apply comprehension_raise in E as ([idx m] & Hin & He).
    apply in_map_iff in Hin as ([idx' b] & Hx & Hin). injection Hx as -> <-.
    exists e, (idx, b). split; [exact Hin|]. split; [|reflexivity].
    rewrite blocks_to_quad_form_singleton. exact He.
Qed.

Lemma Forall2_length_eq {A B : Type} (R : A -> B -> Prop) (l : list A)
      (l' : list B) :
  Forall2 R l l' -> length l = length l'.
Proof. induction 1; cbn; congruence. Qed.

Lemma QuadraticForm_ZZ_nrows (M : qmatrix) (f : form) :
  QuadraticForm_ZZ M = Ok f -> nrows f = length M.
Proof.
  unfold QuadraticForm_ZZ. intros H.
  destruct (comprehension (comprehension to_ZZ) M) as [m|e] eqn:E;
    cbn [bind] in H; [|discriminate].
  destruct (is_symmetric m && forallb Z.even (diagonal m)); [|discriminate].
  injection H as <-. apply comprehension_Forall2, Forall2_length_eq in E.
  unfold nrows. congruence.
Qed.

Lemma blocks_to_quad_form_singleton_nrows (idx : Z) (b : qf) (p : Z)
      (f : form) :
  _blocks_to_quad_form [(idx, b)] p = Ok f -> nrows f = rank_of b.
Proof.
  rewrite blocks_to_quad_form_singleton.
  destruct (pow p idx) as [c|e]; cbn [bind]; [|discriminate].
  intros H. apply QuadraticForm_ZZ_nrows in H. rewrite H.
  unfold scaled. rewrite length_map. destruct b; reflexivity.
Qed.

Lemma nrows_form_add (f g : form) :
  nrows (form_add f g) = (nrows f + nrows g)%nat.
Proof. unfold form_add, nrows. rewrite length_app, !length_map. reflexivity. Qed.

Lemma form_add_assoc (f g k : form) :
  form_add (form_add f g) k = form_add f (form_add g k).
Proof.
  unfold form_add at 1 3. rewrite !nrows_form_add.
  unfold form_add. rewrite !map_app, !map_map, <- app_assoc.
  f_equal; [|f_equal].
  - apply map_ext. intros r. rewrite <- app_assoc, repeat_app. reflexivity.
  - apply map_ext. intros r. rewrite app_assoc. reflexivity.
  - apply map_ext. intros r. rewrite repeat_app, <- app_assoc. reflexivity.
Qed.

Lemma fold_left_form_add (qs : list form) :
  forall f q, fold_left form_add qs (form_add f q)
              = form_add f (fold_left form_add qs q).
Proof.
  induction qs as [|q' qs IH]; intros f q; cbn; [reflexivity|].
  rewrite form_add_assoc. apply IH.
Qed.

Lemma nrows_fold_left_form_add (qs : list form) :
  forall q, nrows (fold_left form_add qs q)
            = (nrows q + list_sum (map nrows qs))%nat.
Proof.
  unfold list_sum.
  induction qs as [|q' qs IH]; intros q; cbn [fold_left map fold_right].
  - lia.
  - rewrite IH, nrows_form_add. lia.
Qed.

(** X10: the form the lifter returns has as many variables as the blocks
    have rank: one for an integer, two for ["h"] and ["y"]. *)
Theorem blocks_to_quad_form_dim (blcs : list blc) (p : Z) (f : form) :
  _blocks_to_quad_form blcs p = Ok f -> nrows f = total_rank blcs.
Proof.
  intros H.
  destruct (blocks_to_quad_form_cases blcs p)
    as [(qfs & Hqfs & E)|(e & x & _ & _ & E)]; [|congruence].
  rewrite E in H. clear E.
  assert (Hsum : list_sum (map nrows qfs) = total_rank blcs).
  { clear H. unfold total_rank, list_sum.
    induction Hqfs as [|[idx b] q blcs qfs Hq _ IH]; [reflexivity|].
    cbn [map fold_right snd]. rewrite IH.
    rewrite (blocks_to_quad_form_singleton_nrows _ _ _ _ Hq). reflexivity. }
  destruct qfs as [|q qfs]; [discriminate|].
  cbn [reduce] in H. injection H as <-.
  rewrite nrows_fold_left_form_add, <- Hsum. reflexivity.
Qed.

Lemma blocks_to_quad_form_dim_witness :
  nrows [[12; 0; 0]; [0; 0; 1]; [0; 1; 0]] = 3%nat.
Proof.
  apply (blocks_to_quad_form_dim [(1, Res 3); (0, hyp2_name)] 2).
  reflexivity.
Defined.

(** X11: the lifter turns the concatenation of two block lists into the
    direct sum of their forms. *)
Theorem blocks_to_quad_form_app (blcs1 blcs2 : list blc) (p : Z)
        (f1 f2 : form) :
  _blocks_to_quad_form blcs1 p = Ok f1 ->
  _blocks_to_quad_form blcs2 p = Ok f2 ->
  _blocks_to_quad_form (blcs1 ++ blcs2) p = Ok (form_add f1 f2).
Proof.
  rewrite !blocks_to_quad_form_eq. intros H1 H2. rewrite map_app.
  destruct (comprehension _ (map (fun '(idx, b) => (idx, mat_of b)) blcs1))
    as [qfs1|e] eqn:E1; cbn [bind] in H1; [|discriminate].
  destruct (comprehension _ (map (fun '(idx, b) => (idx, mat_of b)) blcs2))
    as [qfs2|e] eqn:E2; cbn [bind] in H2; [|discriminate].
  match goal with
  | |- bind ?c _ = _ =>
    replace c with (@Ok (list form) (qfs1 ++ qfs2))
      by (symmetry; exact (comprehension_app _ _ _ _ _ E1 E2))
  end.
  cbn [bind].
  destruct qfs1 as [|q1 qfs1]; [discriminate|].
  destruct qfs2 as [|q2 qfs2]; [discriminate|].
  cbn [reduce app] in *. injection H1 as <-. injection H2 as <-.
  rewrite fold_left_app. cbn [fold_left].
  rewrite fold_left_form_add. reflexivity.
Qed.

Lemma blocks_to_quad_form_app_witness :
  _blocks_to_quad_form ([(1, Res 3)] ++ [(0, hyp2_name)]) 2
  = Ok (form_add [[12]] [[0; 1]; [1; 0]]).
Proof.
  apply (blocks_to_quad_form_app [(1, Res 3)] [(0, hyp2_name)] 2);
    reflexivity.
Defined.

Lemma QuadraticForm_ZZ_unit (n : Z) (c : Q) (k : Z) :
  (c == inject_Z k)%Q ->
  QuadraticForm_ZZ (scaled (mat_of (Res n)) c) = Ok [[n * 2 * k]].
Proof.
  intros Hc. unfold QuadraticForm_ZZ.
  cbn [mat_of scaled map comprehension bind].
  rewrite (scaled_entry (inject_Z n) c (n * 2) k)
    by (rewrite <- ?inject_Z_mult; easy).
  cbn [bind]. unfold is_symmetric, diagonal. cbn.
  rewrite Z.eqb_refl, Z.even_mul, Z.even_mul. cbn.
  rewrite orb_true_r. reflexivity.
Qed.

Lemma QuadraticForm_ZZ_h (c : Q) (k : Z) :
  (c == inject_Z k)%Q ->
  QuadraticForm_ZZ (scaled (mat_of hyp2_name) c)
  = Ok [[0 * k; 1 * k]; [1 * k; 0 * k]].
Proof.
  intros Hc. unfold QuadraticForm_ZZ.
  cbn [mat_of h scaled map comprehension bind].
  rewrite (scaled_entry 0 c 0 k), (scaled_entry (1 # 2) c 1 k) by easy.
  cbn [bind]. unfold is_symmetric, diagonal. cbn.
  rewrite !Z.eqb_refl. reflexivity.
Qed.

Lemma QuadraticForm_ZZ_y (c : Q) (k : Z) :
  (c == inject_Z k)%Q ->
  QuadraticForm_ZZ (scaled (mat_of y2_name) c)
  = Ok [[2 * k; 1 * k]; [1 * k; 2 * k]].
Proof.
  intros Hc. unfold QuadraticForm_ZZ.
  cbn [mat_of y scaled map comprehension bind].
  rewrite (scaled_entry 1 c 2 k), (scaled_entry (1 # 2) c 1 k) by easy.
  cbn [bind]. unfold is_symmetric, diagonal. cbn -[Z.mul].
  rewrite !Z.eqb_refl, Z.even_mul. reflexivity.
Qed.

(** X12: at a scale [a >= 0] the lifter gives the integer [n] the form of
    [[2*n*p^a]], ["h"] the form of [[0, p^a], [p^a, 0]] and ["y"] the form
    of [[2*p^a, p^a], [p^a, 2*p^a]]: twice the matrices [[n]], [h] and [y]
    scaled by [p^a]. *)
Theorem blocks_to_quad_form_block (a n p : Z) :
  0 <= a ->
  _blocks_to_quad_form [(a, Res n)] p = Ok [[2 * n * p ^ a]] /\
  _blocks_to_quad_form [(a, hyp2_name)] p = Ok [[0; p ^ a]; [p ^ a; 0]] /\
  _blocks_to_quad_form [(a, y2_name)] p
  = Ok [[2 * p ^ a; p ^ a]; [p ^ a; 2 * p ^ a]].
Proof.
  intros Ha. rewrite !blocks_to_quad_form_singleton.
  destruct (pow_nonneg p a Ha) as (c & -> & Hc). cbn [bind].
  rewrite (QuadraticForm_ZZ_unit n c _ Hc), (QuadraticForm_ZZ_h c _ Hc),
    (QuadraticForm_ZZ_y c _ Hc).
  repeat split; do 2 f_equal; try (f_equal; ring); f_equal; try ring;
    f_equal; ring.
Qed.

Lemma blocks_to_quad_form_block_witness :
  _blocks_to_quad_form [(2, Res 5)] 3 = Ok [[90]] /\
  _blocks_to_quad_form [(2, hyp2_name)] 3 = Ok [[0; 9]; [9; 0]] /\
  _blocks_to_quad_form [(2, y2_name)] 3 = Ok [[18; 9]; [9; 18]].
Proof.
  apply (blocks_to_quad_form_block 2 5 3). lia.
Defined.

(** ** The polynomial routines *)

Lemma unit_diags_at_single (a r : Z) : unit_diags_at a [(a, Res r)] = [r].
Proof. unfold unit_diags_at. cbn. rewrite Z.eqb_refl. reflexivity. Qed.

Lemma siegel_series_polynomial_2_single (a r : Z) :
  0 <= a ->
  _siegel_series_polynomial_2 [(a, Res r)] = Raises (Raised TypeError).
Proof.
  intros Ha. unfold _siegel_series_polynomial_2.
  rewrite unit_diags_at_single. cbn [length Nat.eqb].
  destruct (blocks_to_quad_form_ok [(a, Res r)] 2 ltac:(discriminate))
    as (q & Hq); [repeat constructor; exact Ha|].
  match goal with
  | |- match ?t with _ => _ end = _ =>
    replace t with (@Ok form q) by (symmetry; exact Hq)
  end.
  reflexivity.
Qed.

(** X13: [_siegel_series_polynomial_2] raises [IndexError] on the empty
    block list and [TypeError] on a list of one integer block of scale
    [a >= 0], whose empty tail the lifter cannot sum; on two or more blocks
    of non-negative scale it returns [None]. *)
Theorem siegel_series_polynomial_2_outcome (a r : Z) (blcs : list blc) :
  _siegel_series_polynomial_2 [] = Raises IndexError /\
  (0 <= a ->
   _siegel_series_polynomial_2 [(a, Res r)] = Raises (Raised TypeError)) /\
  ((2 <= length blcs)%nat -> Forall (fun x => 0 <= fst x) blcs ->
   _siegel_series_polynomial_2 blcs = Returns tt).
Proof.
  split; [reflexivity|]. split.
  - apply siegel_series_polynomial_2_single.
  - intros Hlen Hscales.
    destruct blcs as [|[max_idx b0] [|x blcs']]; cbn [length] in Hlen;
      try lia.
    unfold _siegel_series_polynomial_2.
    destruct (length _ =? 1)%nat; [|reflexivity].
    destruct (blocks_to_quad_form_ok ((max_idx, b0) :: x :: blcs') 2
                ltac:(discriminate) Hscales) as (q & Hq).
    inversion Hscales as [|? ? _ Htail]; subst.
    destruct (blocks_to_quad_form_ok (x :: blcs') 2
                ltac:(discriminate) Htail) as (q2 & Hq2).
    match goal with
    | |- match ?t with _ => _ end = _ =>
      replace t with (@Ok form q) by (symmetry; exact Hq)
    end.
    match goal with
    | |- match ?t with _ => _ end = _ =>
      replace t with (@Ok form q2) by (symmetry; exact Hq2)
    end.
    reflexivity.
Qed.

Lemma siegel_series_polynomial_2_outcome_witness :
  _siegel_series_polynomial_2 [] = Raises IndexError /\
  _siegel_series_polynomial_2 [(3, Res 7)] = Raises (Raised TypeError) /\
  _siegel_series_polynomial_2 [(1, Res 3); (0, hyp2_name)] = Returns tt.
Proof.
  destruct (siegel_series_polynomial_2_outcome 3 7
              [(1, Res 3); (0, hyp2_name)]) as (H0 & H1 & H2).
  split; [exact H0|]. split; [apply H1; lia|].
  apply H2; [cbn; lia | repeat constructor; cbn; lia].
Defined.

Lemma jordan_blocks_2_rank_one (a u : Z) :
  Z.odd u = true -> jordan_blocks_2 [(a, [[u]])] = Some [(a, Res (u mod 8))].
Proof.
  intros Hu. unfold jordan_blocks_2.
  change [(a, [[u]])] with (classes_of [(a, [B1 u])]).
  rewrite first_pass_block_diagonal
    by (repeat constructor; cbn; rewrite Hu; reflexivity).
  reflexivity.
Qed.

(** X14: at p = 2, for a form of rank one, whose only scale class, of
    scale [a >= 0], has the Gram matrix [[u]] with [u] odd,
    [siegel_series_polynomial] ends in the [TypeError] of the lifter on the
    empty tail of the block list. *)
Theorem siegel_series_polynomial_rank_one
        (jordan_blocks_by_scale_and_unimodular : Z -> scale_classes)
        (legendre_symbol : Z -> Z -> Z)
        (least_quadratic_nonresidue : Z -> Z) (a u : Z) :
  jordan_blocks_by_scale_and_unimodular 2 = [(a, [[u]])] ->
  Z.odd u = true -> 0 <= a ->
  siegel_series_polynomial jordan_blocks_by_scale_and_unimodular
                           legendre_symbol least_quadratic_nonresidue 2
  = Some (Raises (Raised TypeError)).
Proof.
  intros Hjb Hu Ha. unfold siegel_series_polynomial. cbn [Z.eqb Pos.eqb].
  rewrite Hjb, (jordan_blocks_2_rank_one a u Hu). f_equal.
  apply siegel_series_polynomial_2_single, Ha.
Qed.

Lemma siegel_series_polynomial_rank_one_witness :
  siegel_series_polynomial (fun _ => [(0, [[3]])])
                           euler_legendre search_nonresidue 2
  = Some (Raises (Raised TypeError)).
Proof.
  apply (siegel_series_polynomial_rank_one
           (fun _ => [(0, [[3]])]) euler_legendre search_nonresidue 0 3);
    [reflexivity | reflexivity | lia].
Defined.

(** ** [q2_q2_blc] *)

(** X15: on a block list of non-negative scales and rank at least three
    [q2_q2_blc] does not fail: it drops the first block or the first two,
    what is left is not empty, and it returns the form of what is left. *)
Theorem q2_q2_blc_returns (blcs : list blc) :
  Forall (fun x => 0 <= fst x) blcs -> (3 <= total_rank blcs)%nat ->
  exists q2 k,
    (k = 1 \/ k = 2)%nat /\
    skipn k blcs <> [] /\
    _blocks_to_quad_form (skipn k blcs) 2 = Ok q2 /\
    q2_q2_blc blcs = Returns (q2, skipn k blcs).
Proof.
  intros Hscales Hrank.
  assert (Hsel : exists k,
             (k = 1 \/ k = 2)%nat /\ skipn k blcs <> [] /\
             q2_q2_blc blcs
             = match _blocks_to_quad_form (skipn k blcs) 2 with
               | Ok q2 => Returns (q2, skipn k blcs)
               | Raise e => Raises (Raised e)
               end).
  { unfold total_rank, list_sum, rank_of in Hrank.
    destruct blcs as [|[e b0] [|[s1 b1] rest]].
    - cbn in Hrank. lia.
    - cbn in Hrank. destruct (is_str b0); lia.
    - unfold q2_q2_blc.
      match goal with
      | |- context [(length ?u =? 1)%nat] =>
        destruct (length u =? 1)%nat eqn:Hone
      end.
      + exists 1%nat. split; [auto|]. split; [discriminate|reflexivity].
      + destruct (is_str b0) eqn:Hb0.
        * exists 1%nat. split; [auto|]. split; [discriminate|reflexivity].
        * exists 2%nat. split; [auto|]. split; [|reflexivity].
          cbn [skipn]. intros ->. cbn in Hrank. rewrite Hb0 in Hrank.
          unfold unit_diags_at in Hone. cbn in Hone.
          rewrite Z.eqb_refl in Hone.
          destruct b0 as [r0| |]; try discriminate.
          destruct b1 as [r1| |]; cbn in Hrank; try lia;
            destruct (s1 =? e); discriminate. }
  destruct Hsel as (k & Hk & Hne & E).
  assert (Hsuffix : Forall (fun x => 0 <= fst x) (skipn k blcs)).
  { apply Forall_forall. intros x Hx. rewrite Forall_forall in Hscales.
    apply Hscales. rewrite <- (firstn_skipn k blcs). apply in_or_app. auto. }
  destruct (blocks_to_quad_form_ok (skipn k blcs) 2 Hne Hsuffix)
    as (q2 & Hq2).
  exists q2, k. split; [exact Hk|]. split; [exact Hne|].
  split; [exact Hq2|]. rewrite E, Hq2. reflexivity.
Qed.

Lemma q2_q2_blc_returns_witness :
  exists q2 k,
    (k = 1 \/ k = 2)%nat /\
    skipn k [(1, hyp2_name); (0, Res 1); (0, Res 3)] <> [] /\
    _blocks_to_quad_form (skipn k [(1, hyp2_name); (0, Res 1); (0, Res 3)]) 2
    = Ok q2 /\
    q2_q2_blc [(1, hyp2_name); (0, Res 1); (0, Res 3)]
    = Returns (q2, skipn k [(1, hyp2_name); (0, Res 1); (0, Res 3)]).
Proof.
  apply (q2_q2_blc_returns [(1, hyp2_name); (0, Res 1); (0, Res 3)]).
  - repeat constructor; cbn; lia.
  - cbn. lia.
Defined.

(** ** The odd splitter *)


(** ** Order inside the result of the 2-adic splitter *)

Section Stability.
Context {A : Type} (key : A -> Z) (f : A -> bool).
Hypothesis f_key : forall x x', f x = true -> f x' = true -> key x = key x'.

Lemma filter_insert_by (x : A) (l : list A) :
  filter f (insert_by key x l) = filter f (x :: l).
Proof.
  induction l as [|x' l IH]; [reflexivity|]. cbn [insert_by].
  destruct (Z.leb_spec (key x) (key x')) as [Hle|Hgt]; [reflexivity|].
  cbn [filter] in *. rewrite IH.
  destruct (f x) eqn:Hx, (f x') eqn:Hx'; try reflexivity.
  pose proof (f_key x x' Hx Hx'). lia.
Qed.

(** Sorting keeps the order of the elements [f] selects. *)
Lemma filter_sorted (l : list A) : filter f (sorted key l) = filter f l.
Proof.
  induction l as [|x l IH]; [reflexivity|].
  cbn [sorted fold_right]. fold (sorted key l).
  rewrite filter_insert_by. cbn [filter]. rewrite IH. reflexivity.
Qed.
End Stability.

Lemma at_scale_sorted (s : Z) (l : list blc) :
  at_scale s (sorted (fun x => - fst x) l) = at_scale s l.
Proof.
  unfold at_scale. apply filter_sorted.
  intros x x' Hx Hx'. apply Z.eqb_eq in Hx, Hx'. lia.
Qed.

Lemma at_scale_app (s : Z) (l1 l2 : list blc) :
  at_scale s (l1 ++ l2) = at_scale s l1 ++ at_scale s l2.
Proof. apply filter_app. Qed.

Lemma at_scale_retag (s k : Z) (l : list qf) :
  at_scale s (map (retag k) l)
  = if k =? s then map (retag k) (map Res (diag_part l))
    else if k + 1 =? s then map (retag k) (non_diag_part l)
         else [].
Proof.
  unfold at_scale, non_diag_part.
  induction l as [|[r| |] l IH]; cbn [map filter retag is_str fst diag_part].
  - destruct (k =? s), (k + 1 =? s); reflexivity.
  - rewrite IH.
    destruct (Z.eqb_spec k s) as [Hk|Hk]; [reflexivity|].
    destruct (k + 1 =? s); reflexivity.
  - rewrite IH.
    destruct (Z.eqb_spec (k + 1) s) as [Hk|Hk].
    + destruct (Z.eqb_spec k s); [lia|reflexivity].
    + destruct (k =? s); reflexivity.
  - rewrite IH.
    destruct (Z.eqb_spec (k + 1) s) as [Hk|Hk].
    + destruct (Z.eqb_spec k s); [lia|reflexivity].
    + destruct (k =? s); reflexivity.
Qed.

Lemma regroup_at_scale_none (s : Z) (gs : list (Z * list (Z * Z)))
      (r : list blc) :
  regroup gs = Some r -> Forall (fun k => s < k) (map fst gs) ->
  at_scale s r = [].
Proof.
  intros Hr Hkeys. unfold at_scale. apply filter_none. intros [s' b] Hin.
  destruct (regroup_in _ _ _ _ Hr Hin) as (k & g & l & Hg & _ & _ & Hs).
  rewrite Forall_forall in Hkeys.
  specialize (Hkeys k (in_map fst _ _ Hg)). cbn in *.
  apply Z.eqb_neq. destruct (is_str b); lia.
Qed.

(** At every scale the second loop appends the strings before the
    integers. *)
Lemma regroup_at_scale (s : Z) (gs : list (Z * list (Z * Z))) :
  forall r, regroup gs = Some r -> StronglySorted Z.lt (map fst gs) ->
  exists ms us,
    at_scale s r = ms ++ us /\
    Forall (fun x => is_str (snd x) = true) ms /\
    Forall (fun x => is_str (snd x) = false) us.
Proof.
  induction gs as [|[k g] gs IH]; intros r Hr Hkeys; cbn [regroup] in Hr.
  - injection Hr as <-. exists [], []. repeat split; constructor.
  - destruct (_trans_jordan_dec_2 (map snd g)) as [l|]; [|discriminate].
    destruct (regroup gs) as [r'|] eqn:Er; [|discriminate].
    injection Hr as <-. cbn [map fst] in Hkeys.
    inversion Hkeys as [|? ? Hgs Hk]; subst.
    rewrite at_scale_app, at_scale_retag.
    destruct (Z.eqb_spec k s) as [Hks|Hks].
    + rewrite (regroup_at_scale_none s gs r' Er) by (subst k; exact Hk).
      exists [], (map (retag k) (map Res (diag_part l))).
      rewrite app_nil_r. repeat split; [constructor|].
      apply Forall_forall. intros x Hx.
      apply in_map_iff in Hx as (b & <- & Hb).
      apply in_map_iff in Hb as (r0 & <- & _). reflexivity.
    + destruct (IH r' eq_refl Hgs) as (ms & us & E & Hms & Hus).
      rewrite E. destruct (k + 1 =? s).
      * exists (map (retag k) (non_diag_part l) ++ ms), us.
        rewrite app_assoc. repeat split; [|exact Hus].
        apply Forall_app. split; [|exact Hms].
        apply Forall_forall. intros x Hx.
        apply in_map_iff in Hx as (b & <- & Hb).
        apply filter_In in Hb as [_ Hb]. unfold retag. rewrite Hb. exact Hb.
      * exists ms, us. auto.
Qed.

(** X17: at every scale the result of the 2-adic splitter lists the
    strings ["h"], ["y"] before the integers: its blocks of scale [s], in
    order, are strings followed by integers. *)
Theorem jordan_blocks_2_strings_first (jb : scale_classes) (res : list blc)
        (s : Z) :
  jordan_blocks_2 jb = Some res ->
  exists ms us,
    at_scale s res = ms ++ us /\
    Forall (fun x => is_str (snd x) = true) ms /\
    Forall (fun x => is_str (snd x) = false) us.
Proof.
  intros Hres.
  destruct (jordan_blocks_2_unfold jb) as (ls & r & _ & Er & E).
  rewrite E in Hres. injection Hres as <-.
  rewrite at_scale_sorted, at_scale_app.
  destruct (regroup_at_scale s _ r Er (list_group_by_keys fst (diag_elts ls)))
    as (ms & us & Ers & Hms & Hus).
  rewrite Ers.
  exists (at_scale s (str_elts ls) ++ ms), us.
  rewrite app_assoc. repeat split; [|exact Hus].
  apply Forall_app. split; [|exact Hms].
  apply Forall_forall. intros x Hx.
  apply filter_In in Hx as [Hx _]. apply filter_In in Hx as [_ Hx]. exact Hx.
Qed.

Lemma jordan_blocks_2_strings_first_witness :
  exists ms us,
    at_scale 1 [(1, y2_name); (1, Res 7); (0, Res 1); (0, Res 3)] = ms ++ us /\
    Forall (fun x => is_str (snd x) = true) ms /\
    Forall (fun x => is_str (snd x) = false) us.
Proof.
  apply (jordan_blocks_2_strings_first
           [(0, [[1; 0; 0; 0]; [0; 1; 0; 0]; [0; 0; 1; 0]; [0; 0; 0; 1]]);
            (1, [[7]])]).
  reflexivity.
Defined.

(** ** The splitters followed by the lifter and the polynomial routine *)

Lemma jordan_blocks_2_block_diagonal_rank (cls : list (Z * list jblock)) :
  Forall (fun c => forallb jblock_ok (snd c) = true) cls ->
  exists res, jordan_blocks_2 (classes_of cls) = Some res /\
              total_rank res = form_rank (classes_of cls).
Proof.
  intros Hcls.
  destruct (jordan_blocks_2_spec (classes_of cls))
    as (ls & r & res & Els & Eres & Hperm & _ & _ & Hr).
  exists res. split; [exact Eres|].
  rewrite (total_rank_perm _ _ Hperm), total_rank_app, Hr, total_rank_split.
  rewrite (first_pass_block_diagonal cls Hcls) in Els.
  injection Els as <-. apply total_rank_first_pass.
Qed.

Lemma emitted_in (cls : list (Z * list jblock)) (s : Z) (b : qf) :
  In (s, b) (flat_map (fun c => map (emitted (fst c)) (snd c)) cls) ->
  exists c blk, In c cls /\ In blk (snd c) /\ emitted (fst c) blk = (s, b).
Proof.
  intros Hin. apply in_flat_map in Hin as (c & Hc & Hin).
  apply in_map_iff in Hin as (blk & E & Hblk). eauto.
Qed.

(** The scale classes of a decomposition at 2: admissible blocks, scales
    from [-1] on, and non-negative where the class has a 1x1 block. *)
Lemma jordan_blocks_2_nonneg (cls : list (Z * list jblock)) (res : list blc) :
  Forall (fun c => forallb jblock_ok (snd c) = true /\ -1 <= fst c /\
                   forall u, In (B1 u) (snd c) -> 0 <= fst c) cls ->
  jordan_blocks_2 (classes_of cls) = Some res ->
  Forall (fun x => 0 <= fst x) res.
Proof.
  intros Hcls Hres. apply Forall_forall. intros [s b] Hin.
  assert (Hok : Forall (fun c => forallb jblock_ok (snd c) = true) cls).
  { apply Forall_forall. intros c Hc. rewrite Forall_forall in Hcls.
    apply (Hcls c Hc). }
  rewrite Forall_forall in Hcls.
  assert (Hunit : forall k r0,
             In (k, Res r0)
                (flat_map (fun c => map (emitted (fst c)) (snd c)) cls) ->
             0 <= k).
  { intros k r0 Hk.
    destruct (emitted_in cls _ _ Hk) as (c & blk & Hc & Hblk & E).
    destruct (Hcls c Hc) as (_ & _ & Hpos).
    destruct blk as [u|x b' z]; cbn in E.
    - injection E as <- _. apply (Hpos u Hblk).
    - destruct (x =? 0); discriminate. }
  destruct (jordan_blocks_2_in _ _ _ _ Hres Hin)
    as (ls & Els & [[Hs Hls]|(k & g & l & Hg & Hne & _ & _ & Hk)]);
    rewrite (first_pass_block_diagonal cls Hok) in Els;
    injection Els as <-; cbn [fst].
  - destruct (emitted_in cls _ _ Hls) as (c & blk & Hc & Hblk & E).
    destruct (Hcls c Hc) as (_ & Hlow & _).
    destruct blk as [u|x b' z]; cbn in E.
    + injection E as _ <-. discriminate.
    + destruct (x =? 0); injection E as <- _; lia.
  - destruct g as [|x g]; [congruence|].
    destruct (Hg x (or_introl eq_refl)) as [Hls Hx].
    apply Hunit in Hls. destruct (is_str b); lia.
Qed.

Lemma rank_two_blocks (blcs : list blc) :
  (2 <= total_rank blcs)%nat ->
  (2 <= length blcs)%nat \/
  exists s b, blcs = [(s, b)] /\ is_str b = true.
Proof.
  unfold total_rank, list_sum, rank_of.
  destruct blcs as [|[s b] [|x blcs]]; cbn; intros H.
  - lia.
  - right. exists s, b. destruct (is_str b); [auto|lia].
  - left. lia.
Qed.

(** X18: at p = 2, for a form of rank two or more whose scale classes
    are as the decomposition delivers them, [siegel_series_polynomial]
    raises nothing and returns [None]: no polynomial is computed. *)
Theorem siegel_series_polynomial_two_returns_none
        (jordan_blocks_by_scale_and_unimodular : Z -> scale_classes)
        (legendre_symbol : Z -> Z -> Z)
        (least_quadratic_nonresidue : Z -> Z)
        (cls : list (Z * list jblock)) :
  jordan_blocks_by_scale_and_unimodular 2 = classes_of cls ->
  Forall (fun c => forallb jblock_ok (snd c) = true /\ -1 <= fst c /\
                   forall u, In (B1 u) (snd c) -> 0 <= fst c) cls ->
  (2 <= form_rank (classes_of cls))%nat ->
  siegel_series_polynomial jordan_blocks_by_scale_and_unimodular
                           legendre_symbol least_quadratic_nonresidue 2
  = Some (Returns tt).
Proof.
  intros Hjb Hcls Hrank. unfold siegel_series_polynomial.
  cbn [Z.eqb Pos.eqb]. rewrite Hjb.
  assert (Hok : Forall (fun c => forallb jblock_ok (snd c) = true) cls).
  { apply Forall_forall. intros c Hc. rewrite Forall_forall in Hcls.
    apply (Hcls c Hc). }
  destruct (jordan_blocks_2_block_diagonal_rank cls Hok) as (res & Eres & Hr).
  rewrite Eres. f_equal.
  pose proof (jordan_blocks_2_nonneg cls res Hcls Eres) as Hscales.
  rewrite <- Hr in Hrank.
  destruct (rank_two_blocks res Hrank) as [Hlen|(s & b & -> & Hb)].
  - destruct res as [|[max_idx b0] [|x res']]; cbn [length] in Hlen; try lia.
    unfold _siegel_series_polynomial_2.
    destruct (length _ =? 1)%nat; [|reflexivity].
    destruct (blocks_to_quad_form_ok ((max_idx, b0) :: x :: res') 2
                ltac:(discriminate) Hscales) as (q & Hq).
    inversion Hscales as [|? ? _ Htail]; subst.
    destruct (blocks_to_quad_form_ok (x :: res') 2
                ltac:(discriminate) Htail) as (q2 & Hq2).
    match goal with
    | |- match ?t with _ => _ end = _ =>
      replace t with (@Ok form q) by (symmetry; exact Hq)
    end.
    match goal with
    | |- match ?t with _ => _ end = _ =>
      replace t with (@Ok form q2) by (symmetry; exact Hq2)
    end.
    reflexivity.
  - unfold _siegel_series_polynomial_2, unit_diags_at. cbn.
    rewrite Z.eqb_refl. cbn. destruct b; [discriminate|reflexivity..].
Qed.

Lemma siegel_series_polynomial_two_returns_none_witness :
  siegel_series_polynomial
    (fun _ => classes_of [(-1, [B2 0 1 0]); (0, [B1 1; B1 1; B1 1])])
    euler_legendre search_nonresidue 2
  = Some (Returns tt).
Proof.
  apply (siegel_series_polynomial_two_returns_none
           (fun _ => classes_of [(-1, [B2 0 1 0]); (0, [B1 1; B1 1; B1 1])])
           euler_legendre search_nonresidue
           [(-1, [B2 0 1 0]); (0, [B1 1; B1 1; B1 1])]).
  - reflexivity.
  - repeat constructor; cbn; try lia;
      intros u [H|H]; try discriminate H; try lia; destruct H.
  - cbn. lia.
Defined.

Lemma blocks_to_quad_form_nrows (blcs : list blc) (p : Z) (f : form) :
  _blocks_to_quad_form blcs p = Ok f -> nrows f = total_rank blcs.
Proof.
  intros H.
  destruct (blocks_to_quad_form_cases blcs p)
    as [(qfs & Hqfs & E)|(e & x & _ & _ & E)]; [|congruence].
  rewrite E in H. clear E.
  assert (Hsum : list_sum (map nrows qfs) = total_rank blcs).
  { clear H. unfold total_rank, list_sum.
    induction Hqfs as [|[idx b] q blcs qfs Hq _ IH]; [reflexivity|].
    cbn [map fold_right snd]. rewrite IH.
    rewrite (blocks_to_quad_form_singleton_nrows _ _ _ _ Hq). reflexivity. }
  destruct qfs as [|q qfs]; [discriminate|].
  cbn [reduce] in H. injection H as <-.
  rewrite nrows_fold_left_form_add, <- Hsum. reflexivity.
Qed.

Lemma positive_rank_nonempty (blcs : list blc) :
  (1 <= total_rank blcs)%nat -> blcs <> [].
Proof. intros H ->. cbn in H. lia. Qed.

(** X19: splitting and lifting keeps the dimension.  For a form of rank
    at least one, the lifter accepts the block list of the 2-adic splitter
    (scale classes as the decomposition at 2 delivers them) and that of the
    odd splitter (square Gram matrices, scales not negative), and the form
    it returns has the rank of the form that was split. *)
Theorem lift_split_dimension
        (legendre_symbol : Z -> Z -> Z) (least_quadratic_nonresidue : Z -> Z)
        (cls : list (Z * list jblock)) (jb : scale_classes) (p : Z) :
  (Forall (fun c => forallb jblock_ok (snd c) = true /\ -1 <= fst c /\
                    forall u, In (B1 u) (snd c) -> 0 <= fst c) cls ->
   (1 <= form_rank (classes_of cls))%nat ->
   exists res f,
     jordan_blocks_2 (classes_of cls) = Some res /\
     _blocks_to_quad_form res 2 = Ok f /\
     nrows f = form_rank (classes_of cls)) /\
  (Forall (fun c => ncols (snd c) = nrows (snd c) /\ 0 <= fst c) jb ->
   (1 <= form_rank jb)%nat ->
   exists f,
     _blocks_to_quad_form
       (jordan_blocks_odd legendre_symbol least_quadratic_nonresidue jb p) p
     = Ok f /\
     nrows f = form_rank jb).
Proof.
  split.
  - intros Hcls Hrank.
    assert (Hok : Forall (fun c => forallb jblock_ok (snd c) = true) cls).
    { apply Forall_forall. intros c Hc. rewrite Forall_forall in Hcls.
      apply (Hcls c Hc). }
    destruct (jordan_blocks_2_block_diagonal_rank cls Hok)
      as (res & Eres & Hr).
    pose proof (jordan_blocks_2_nonneg cls res Hcls Eres) as Hscales.
    rewrite <- Hr in Hrank.
    destruct (blocks_to_quad_form_ok res 2
                (positive_rank_nonempty res Hrank) Hscales) as (f & Hf).
    exists res, f. split; [exact Eres|]. split; [exact Hf|].
    rewrite (blocks_to_quad_form_nrows _ _ _ Hf). exact Hr.
  - intros Hjb Hrank.
    set (blcs := jordan_blocks_odd legendre_symbol
                                   least_quadratic_nonresidue jb p).
    assert (Hr : total_rank blcs = form_rank jb).
    { unfold blcs. rewrite total_rank_jordan_blocks_odd. unfold form_rank.
      f_equal. apply map_ext_in. intros c Hc. apply length_diagonal.
      rewrite Forall_forall in Hjb. apply (Hjb c Hc). }
    assert (Hscales : Forall (fun x => 0 <= fst x) blcs).
    { apply Forall_forall. intros [s b] Hin. unfold blcs, jordan_blocks_odd in Hin.
      apply in_rev, in_flat_map in Hin as ([a m] & Hc & Hin).
      apply in_map_iff in Hin as (t & Ht & _).
      rewrite Forall_forall in Hjb. destruct (Hjb _ Hc) as [_ Ha].
      destruct (legendre_symbol t p =? 1); injection Ht as <- _; exact Ha. }
    rewrite <- Hr in Hrank.
    destruct (blocks_to_quad_form_ok blcs p
                (positive_rank_nonempty blcs Hrank) Hscales) as (f & Hf).
    exists f. split; [exact Hf|].
    rewrite (blocks_to_quad_form_nrows _ _ _ Hf). exact Hr.
Qed.

Lemma lift_split_dimension_witness :
  (exists res f,
      jordan_blocks_2 (classes_of [(-1, [B2 2 1 2]); (0, [B1 1; B1 1; B1 1])])
      = Some res /\
      _blocks_to_quad_form res 2 = Ok f /\ nrows f = 5%nat) /\
  (exists f,
      _blocks_to_quad_form
        (jordan_blocks_odd euler_legendre search_nonresidue
           [(0, [[1; 0]; [0; 2]]); (1, [[5]])] 3) 3
      = Ok f /\ nrows f = 3%nat).
Proof.
  destruct (lift_split_dimension euler_legendre search_nonresidue
              [(-1, [B2 2 1 2]); (0, [B1 1; B1 1; B1 1])]
              [(0, [[1; 0]; [0; 2]]); (1, [[5]])] 3) as [H2 Hodd].
  split.
  - apply H2; [|cbn; lia].
    repeat constructor; cbn; try lia;
      intros u [H|H]; try discriminate H; try lia; destruct H.
  - apply Hodd; [|cbn; lia]. repeat constructor; cbn; lia.
Defined.

(** X20: the reducer is idempotent on residues: run again on the residues
    of its own result, it returns them as they are. *)
Theorem trans_jordan_dec_2_idempotent (us : list Z) :
  exists l,
    _trans_jordan_dec_2 us = Some l /\
    _trans_jordan_dec_2 (diag_part l) = Some (map Res (diag_part l)).
Proof.
  destruct (trans_jordan_dec_2_total us) as (l & E & Hle & _).
  exists l. split; [exact E|].
  unfold _trans_jordan_dec_2. apply trans_jordan_dec_2_fuel_short. exact Hle.
Qed.
